(** * cli.h: a shallow embedding of the command-line classifier

    The development follows [src/cli.h]: the style globals and
    [cli_toggle_colors], the dynamic-array macros [cli_da_init] and
    [cli_da_append], [cli_pop_argv] and [cli_parse].

    Modelling conventions.
    - A [const char*] that points to a NUL-terminated string is a [string];
      reading one byte past the last character gives the terminator
      ([char_at]).  A pointer that may be [NULL] is an [option].
    - [unsigned short] fields are [Z] with the wrap-around modulo 2^16 written
      out where the code increments them.
    - The heap block returned by [CLI_MALLOC] is a list of slots, each of
      them uninitialised ([None]) or holding a borrowed token.
    - Whether a call of [CLI_MALLOC] succeeds is decided by the environment:
      the world carries an oracle indexed by the number of the request.
    - [assert] is compiled in (no [NDEBUG]): a failed assertion writes its
      diagnostic to stderr and stops the program, which is the outcome
      [Halted]. The text of that diagnostic is implementation-defined; the
      world carries it, as it carries the answers of the allocator. *)

From Stdlib Require Import ZArith Ascii String.
From stdpp Require Import base tactics option list strings.

Local Open Scope Z_scope.

(** ** C strings *)

Definition NUL : ascii := Ascii.zero.
Definition ESC : ascii := ascii_of_nat 27.
Definition LF : ascii := ascii_of_nat 10.
Definition dash : ascii := ascii_of_nat 45.

(** [s[i]] for a NUL-terminated string: the terminator is read at index
    [String.length s]. The code never reads beyond it. *)
Definition char_at (s : string) (i : nat) : ascii :=
  default NUL (String.get i s).

(** A Rocq string is the contents of a C string when it holds no NUL. *)
Fixpoint cstring (s : string) : Prop :=
  match s with
  | EmptyString => True
  | String c r => c ≠ NUL ∧ cstring r
  end.

(** ** Style state: the five globals of lines 88-92 *)

Record Style := mkStyle {
  CLI_RESET : string;
  CLI_BOLD : string;
  CLI_DIM : string;
  CLI_FORE_RED : string;
  CLI_FORE_BRBLUE : string
}.

Definition style_initial : Style := mkStyle "" "" "" "" "".

Definition style_ansi : Style :=
  mkStyle (String ESC "[0m") (String ESC "[1m") (String ESC "[2m")
          (String ESC "[31m") (String ESC "[94m").

(** [cli_toggle_colors], lines 216-232. [no_styles] is the compile-time
    switch [CLI_NO_STYLES], under which the body is empty. *)
Definition cli_toggle_colors (no_styles : bool) (s : Style) : Style :=
  if no_styles then s
  else if Ascii.eqb (char_at (CLI_RESET s) 0) NUL then style_ansi
  else style_initial.

(** ** The data model, lines 94-112 *)

Module CliStringArray.
Record t := mk {
  length : Z;                              (* unsigned short *)
  capacity : Z;                            (* unsigned short *)
  data : option (list (option string))     (* const char**, None = NULL *)
}.
Definition zero : t := mk 0 0 None.
Definition set_length (n : Z) (a : t) : t := mk n (capacity a) (data a).
Definition set_data (d : option (list (option string))) (a : t) : t :=
  mk (length a) (capacity a) d.
End CliStringArray.

Record Cli := mkCli {
  execfile : option string;
  command : option string;
  args : CliStringArray.t;
  cmd_options : CliStringArray.t;
  program_options : CliStringArray.t
}.

Definition set_execfile (e : option string) (c : Cli) : Cli :=
  mkCli e (command c) (args c) (cmd_options c) (program_options c).
Definition set_args (a : CliStringArray.t) (c : Cli) : Cli :=
  mkCli (execfile c) (command c) a (cmd_options c) (program_options c).
Definition set_cmd_options (a : CliStringArray.t) (c : Cli) : Cli :=
  mkCli (execfile c) (command c) (args c) a (program_options c).
Definition set_program_options (a : CliStringArray.t) (c : Cli) : Cli :=
  mkCli (execfile c) (command c) (args c) (cmd_options c) a.

(** [(struct Cli) { 0 }] *)
Definition Cli_zero : Cli :=
  mkCli None None CliStringArray.zero CliStringArray.zero CliStringArray.zero.

Inductive CliError := CliErrorOk | CliErrorUser | CliErrorFatal.

(** ** The world outside the [Cli] structure *)

(** How a run can stop without returning. *)
Inductive halt :=
  | AssertArgc          (* CLI_ASSERT( *argc) in cli_pop_argv *)
  | AssertCapacity      (* assert(0 && "TODO: ...") in cli_da_append *)
  | NullWrite           (* a store through a NULL data pointer *)
  | WildWrite.          (* a store outside the block behind [data] *)

Record World := mkWorld {
  style : Style;                 (* the five style globals *)
  err_stream : list string;      (* what was written to stderr, in order *)
  alloc_ok : nat → bool;         (* does the n-th request to CLI_MALLOC succeed *)
  assert_text : halt → string;   (* what a failed assert writes to stderr *)
  malloc_calls : nat;            (* requests made so far *)
  live_blocks : nat              (* blocks obtained and not yet freed *)
}.

Definition emit (line : string) (w : World) : World :=
  mkWorld (style w) (err_stream w ++ [line]) (alloc_ok w) (assert_text w)
          (malloc_calls w) (live_blocks w).

(** A failed [assert]: its diagnostic goes to stderr, then the program is
    aborted. The two stores that C leaves undefined print nothing. *)
Definition assertion_failed (h : halt) (w : World) : World :=
  match h with
  | AssertArgc | AssertCapacity => emit (assert_text w h) w
  | NullWrite | WildWrite => w
  end.

(** Configuration macros, with their default values (lines 160-173). *)
Definition CLI_DEFAULT_ARR_CAP : Z := 5.
Definition CLI_ERROR_SYM : string := "✖".
Definition CLI_INFO_SYM : string := "●".

Definition USHRT_MODULUS : Z := 65536.

(** [CLI_MALLOC(n * sizeof(const char* ))]: a fresh block of [n]
    uninitialised slots, or [NULL]. *)
Definition CLI_MALLOC (n : Z) (w : World) : option (list (option string)) * World :=
  if alloc_ok w (malloc_calls w)
  then (Some (replicate (Z.to_nat n) None),
        mkWorld (style w) (err_stream w) (alloc_ok w) (assert_text w)
                (S (malloc_calls w)) (S (live_blocks w)))
  else (None,
        mkWorld (style w) (err_stream w) (alloc_ok w) (assert_text w)
                (S (malloc_calls w)) (live_blocks w)).

(** [CLI_FREE(p)]; freeing [NULL] does nothing. *)
Definition CLI_FREE (p : option (list (option string))) (w : World) : World :=
  match p with
  | None => w
  | Some _ =>
      mkWorld (style w) (err_stream w) (alloc_ok w) (assert_text w)
              (malloc_calls w) (Nat.pred (live_blocks w))
  end.

(** ** Diagnostics, lines 190-199

    ["%s" CLI_ERROR_SYM "%s%s " title "%s: " msg "\n"] with the arguments
    [CLI_FORE_RED, CLI_RESET, CLI_BOLD, CLI_RESET]; [msg] is given already
    formatted. *)
Definition cli_print_error (title msg : string) (w : World) : World :=
  let s := style w in
  emit (CLI_FORE_RED s +:+ CLI_ERROR_SYM +:+ CLI_RESET s +:+ CLI_BOLD s +:+ " "
        +:+ title +:+ CLI_RESET s +:+ ": " +:+ msg +:+ String LF "") w.

(** ** Dynamic arrays, lines 175-188 *)

(** [cli_da_init(array, item_t, da_malloc)]: capacity, then length, then the
    allocation; the caller tests [data] afterwards. *)
Definition cli_da_init (w : World) : CliStringArray.t * World :=
  let '(p, w') := CLI_MALLOC CLI_DEFAULT_ARR_CAP w in
  (CliStringArray.mk 0 CLI_DEFAULT_ARR_CAP p, w').

Inductive da_result :=
  | Appended (a : CliStringArray.t)
  | Stopped (h : halt) (a : CliStringArray.t).

(** [cli_da_append(array, item)]: the length is incremented first (in an
    unsigned short), then compared with the capacity, then the item is
    stored at [length - 1], an [int]. When the assertion fails the program
    stops with the length already incremented and nothing stored. A store
    through a null [data], or at an index outside the block (such as [-1]
    after the length wrapped to 0), is undefined in C and ends the modelled
    run ([NullWrite], [WildWrite]). *)
Definition cli_da_append (a : CliStringArray.t) (item : string) : da_result :=
  let a1 := CliStringArray.set_length
              ((CliStringArray.length a + 1) mod USHRT_MODULUS) a in
  if CliStringArray.capacity a1 <? CliStringArray.length a1
  then Stopped AssertCapacity a1
  else match CliStringArray.data a1 with
       | None => Stopped NullWrite a1
       | Some d =>
           let i := CliStringArray.length a1 - 1 in
           if (i <? 0) || (Z.of_nat (length d) <=? i)
           then Stopped WildWrite a1
           else Appended (CliStringArray.set_data
                  (Some (<[Z.to_nat i := Some item]> d)) a1)
       end.

(** The tokens an array holds: its first [length] slots. *)
Definition items (a : CliStringArray.t) : list (option string) :=
  match CliStringArray.data a with
  | None => []
  | Some d => take (Z.to_nat (CliStringArray.length a)) d
  end.

(** [array.data[array.length - 1]], as the diagnostic of line 274 reads it. *)
Definition last_item (a : CliStringArray.t) : string :=
  match CliStringArray.data a with
  | None => ""
  | Some d => default "" (mjoin (d !! Z.to_nat (CliStringArray.length a - 1)))
  end.

(** ** [cli_pop_argv], lines 234-238

    The pair [argc, argv] is the list of the tokens not yet consumed. *)
Definition cli_pop_argv (argv : list string) : option (string * list string) :=
  match argv with
  | [] => None                      (* CLI_ASSERT( *argc) fails *)
  | a :: rest => Some (a, rest)
  end.

(** ** [cli_parse], lines 240-291 *)

Inductive outcome :=
  | Returned (e : CliError) (c : Cli) (w : World)
  | Halted (h : halt) (c : Cli) (w : World).

(** The variables of the loop: the structure behind [cli], the world, and
    the local [is_cmd_option]. *)
Record Frame := mkFrame {
  f_cli : Cli;
  f_world : World;
  is_cmd_option : bool
}.

Definition double_dash_message (arg last : string) : string :=
  "Double dash ('" +:+ arg
  +:+ "') cannot be specified after the positional argument ('" +:+ last
  +:+ "').".

(** One iteration of the [while] loop on the token [arg] (lines 264-284). *)
Definition parse_token (arg : string) (f : Frame) : Frame + outcome :=
  let c := f_cli f in
  if Ascii.eqb (char_at arg 0) dash then
    if Ascii.eqb (char_at arg 1) dash && Ascii.eqb (char_at arg 2) NUL then
      if 0 <? CliStringArray.length (args c) then
        inr (Returned CliErrorUser c
               (cli_print_error "CLI error"
                  (double_dash_message arg (last_item (args c))) (f_world f)))
      else inl (mkFrame c (f_world f) true)
    else if is_cmd_option f then
      match cli_da_append (cmd_options c) arg with
      | Appended a => inl (mkFrame (set_cmd_options a c) (f_world f) (is_cmd_option f))
      | Stopped h a =>
          inr (Halted h (set_cmd_options a c) (assertion_failed h (f_world f)))
      end
    else
      match cli_da_append (program_options c) arg with
      | Appended a => inl (mkFrame (set_program_options a c) (f_world f) (is_cmd_option f))
      | Stopped h a =>
          inr (Halted h (set_program_options a c) (assertion_failed h (f_world f)))
      end
  else
    match cli_da_append (args c) arg with
    | Appended a => inl (mkFrame (set_args a c) (f_world f) (is_cmd_option f))
    | Stopped h a =>
        inr (Halted h (set_args a c) (assertion_failed h (f_world f)))
    end.

(** [while (argc) { arg = cli_pop_argv(&argc, &argv); ... }]: the frame at
    the exit of the loop, or the outcome of a [return] or of a failed
    assertion inside it. *)
Fixpoint parse_loop (argv : list string) (f : Frame) : Frame + outcome :=
  match argv with
  | [] => inl f
  | arg :: rest =>
      match parse_token arg f with
      | inl f' => parse_loop rest f'
      | inr o => inr o
      end
  end.

Definition cli_parse (argv : list string) (cli : Cli) (w : World) : outcome :=
  match cli_pop_argv argv with
  | None => Halted AssertArgc cli (assertion_failed AssertArgc w)
  | Some (exec, rest) =>
      match rest with
      | _ :: _ =>                                         (* argc > 0 *)
          let c := set_execfile (Some exec) cli in
          let '(a, w) := cli_da_init w in
          let c := set_args a c in
          if CliStringArray.data a is None then
            Returned CliErrorFatal c
              (cli_print_error "Memory error"
                 "Unable to allocate memory for CLI arguments." w)
          else
          let '(a, w) := cli_da_init w in
          let c := set_cmd_options a c in
          if CliStringArray.data a is None then
            Returned CliErrorFatal c
              (cli_print_error "Memory error"
                 "Unable to allocate memory for command options." w)
          else
          let '(a, w) := cli_da_init w in
          let c := set_program_options a c in
          if CliStringArray.data a is None then
            Returned CliErrorFatal c
              (cli_print_error "Memory error"
                 "Unable to allocate memory for program options." w)
          else
          match parse_loop rest (mkFrame c w false) with
          | inl f => Returned CliErrorOk (f_cli f) (f_world f)   (* line 290 *)
          | inr o => o
          end
      | [] =>
          let c := set_execfile (Some exec) Cli_zero in   (* lines 287-288 *)
          Returned CliErrorOk c w                         (* line 290 *)
      end
  end.

(** [cli_free], lines 293-297. *)
Definition cli_free (c : Cli) (w : World) : World :=
  CLI_FREE (CliStringArray.data (program_options c))
    (CLI_FREE (CliStringArray.data (cmd_options c))
       (CLI_FREE (CliStringArray.data (args c)) w)).

(** ** Concrete inputs for the examples *)

(** Every allocation succeeds; nothing printed yet. *)
Definition world0 : World :=
  mkWorld style_initial [] (λ _, true)
          (λ _, "prog: cli.h: Assertion failed." +:+ String LF "") 0 0.

(** A structure with left-over contents, as an uninitialised [Cli] has. *)
Definition stale : Cli :=
  mkCli (Some "old") (Some "keep")
        (CliStringArray.mk 9 2 None) (CliStringArray.mk 7 1 None)
        (CliStringArray.mk 3 0 None).

(** ** Projections of an outcome *)

Definition final_cli (o : outcome) : Cli :=
  match o with
  | Returned _ c _ | Halted _ c _ => c
  end.

Definition final_world (o : outcome) : World :=
  match o with
  | Returned _ _ w | Halted _ _ w => w
  end.

Definition arrays_of (o : outcome)
  : list (option string) * list (option string) * list (option string) :=
  match o with
  | Returned _ c _ | Halted _ c _ =>
      (items (args c), items (cmd_options c), items (program_options c))
  end.

(** ** Vocabulary of the specification *)

(** The token begins with the character ['-']. *)
Definition starts_with_dash (t : string) : Prop :=
  match t with
  | String c _ => c = dash
  | EmptyString => False
  end.

Global Instance starts_with_dash_dec t : Decision (starts_with_dash t).
Proof. destruct t; simpl; apply _. Defined.

(** The scope separator. *)
Definition separator : string := "--".

(** A positional token does not begin with ['-']; an option token begins
    with ['-'] and is not the separator. *)
Definition positional (t : string) : Prop := ¬ starts_with_dash t.
Definition option_token (t : string) : Prop :=
  starts_with_dash t ∧ t ≠ separator.

Global Instance positional_dec t : Decision (positional t).
Proof. unfold positional; apply _. Defined.
Global Instance option_token_dec t : Decision (option_token t).
Proof. unfold option_token; apply _. Defined.

(** The tokens before the first separator, and those after it. *)
Fixpoint before_sep (toks : list string) : list string :=
  match toks with
  | [] => []
  | t :: r => if decide (t = separator) then [] else t :: before_sep r
  end.

Fixpoint after_sep (toks : list string) : list string :=
  match toks with
  | [] => []
  | t :: r => if decide (t = separator) then r else after_sep r
  end.

(** The three classes of the specification. *)
Definition positional_tokens (toks : list string) : list string :=
  filter positional toks.
Definition program_option_tokens (toks : list string) : list string :=
  filter option_token (before_sep toks).
Definition command_option_tokens (toks : list string) : list string :=
  filter option_token (after_sep toks).

(** No class holds more tokens than the default capacity. *)
Definition fits (toks : list string) : Prop :=
  Z.of_nat (length (positional_tokens toks)) ≤ CLI_DEFAULT_ARR_CAP
  ∧ Z.of_nat (length (command_option_tokens toks)) ≤ CLI_DEFAULT_ARR_CAP
  ∧ Z.of_nat (length (program_option_tokens toks)) ≤ CLI_DEFAULT_ARR_CAP.

(** The three requests to [CLI_MALLOC] made by [cli_parse] all succeed. *)
Definition allocations_succeed (w : World) : Prop :=
  alloc_ok w (malloc_calls w) = true
  ∧ alloc_ok w (S (malloc_calls w)) = true
  ∧ alloc_ok w (S (S (malloc_calls w))) = true.

(** ** Invariants of the arrays and of the loop *)

Local Abbreviation len := CliStringArray.length.
Local Abbreviation cap := CliStringArray.capacity.

(** The state of an array between two operations of [cli_parse]: it has the
    default capacity, its block has that many slots, and its length is
    within the capacity. *)
Definition da_ok (a : CliStringArray.t) : Prop :=
  cap a = CLI_DEFAULT_ARR_CAP
  ∧ 0 ≤ len a ≤ cap a
  ∧ ∃ d, CliStringArray.data a = Some d ∧ Z.of_nat (length d) = cap a.

(** The three arrays of a frame are in that state. *)
Definition frame_ok (f : Frame) : Prop :=
  da_ok (args (f_cli f)) ∧ da_ok (cmd_options (f_cli f))
  ∧ da_ok (program_options (f_cli f)).

(** [a'] is [a] with the item [t] stored in the next free slot. *)
Definition grows (a : CliStringArray.t) (t : string) (a' : CliStringArray.t) : Prop :=
  da_ok a' ∧ items a' = items a ++ [Some t].

(** [a] is full, and [a'] is [a] as the failed assertion leaves it: the
    length was incremented, nothing was stored. *)
Definition overflows (a a' : CliStringArray.t) : Prop :=
  len a = cap a ∧ a' = CliStringArray.set_length (len a + 1) a.

(** What one iteration of the loop does to a frame whose arrays are in
    that state, by the class of the token. *)
Inductive token_step (t : string) (f : Frame) : Frame + outcome → Prop :=
  | step_positional a :
      positional t → grows (args (f_cli f)) t a →
      token_step t f (inl (mkFrame (set_args a (f_cli f)) (f_world f) (is_cmd_option f)))
  | step_positional_full a :
      positional t → overflows (args (f_cli f)) a →
      token_step t f
        (inr (Halted AssertCapacity (set_args a (f_cli f))
                (assertion_failed AssertCapacity (f_world f))))
  | step_separator :
      t = separator → len (args (f_cli f)) = 0 →
      token_step t f (inl (mkFrame (f_cli f) (f_world f) true))
  | step_separator_late :
      t = separator → 0 < len (args (f_cli f)) →
      token_step t f
        (inr (Returned CliErrorUser (f_cli f)
                (cli_print_error "CLI error"
                   (double_dash_message t (last_item (args (f_cli f)))) (f_world f))))
  | step_command a :
      option_token t → is_cmd_option f = true → grows (cmd_options (f_cli f)) t a →
      token_step t f (inl (mkFrame (set_cmd_options a (f_cli f)) (f_world f) true))
  | step_command_full a :
      option_token t → is_cmd_option f = true → overflows (cmd_options (f_cli f)) a →
      token_step t f
        (inr (Halted AssertCapacity (set_cmd_options a (f_cli f))
                (assertion_failed AssertCapacity (f_world f))))
  | step_program a :
      option_token t → is_cmd_option f = false → grows (program_options (f_cli f)) t a →
      token_step t f (inl (mkFrame (set_program_options a (f_cli f)) (f_world f) false))
  | step_program_full a :
      option_token t → is_cmd_option f = false → overflows (program_options (f_cli f)) a →
      token_step t f
        (inr (Halted AssertCapacity (set_program_options a (f_cli f))
                (assertion_failed AssertCapacity (f_world f)))).

(** The options of [toks] that go to [cmd_options] and to
    [program_options] when the scan starts with [is_cmd_option = b]. *)
Definition cmd_from (b : bool) (toks : list string) : list string :=
  if b then filter option_token toks else command_option_tokens toks.
Definition prog_from (b : bool) (toks : list string) : list string :=
  if b then [] else program_option_tokens toks.

(** No class overflows when [toks] is scanned from the frame [f]. *)
Definition fits_from (f : Frame) (toks : list string) : Prop :=
  len (args (f_cli f)) + Z.of_nat (length (positional_tokens toks))
    ≤ CLI_DEFAULT_ARR_CAP
  ∧ len (cmd_options (f_cli f))
    + Z.of_nat (length (cmd_from (is_cmd_option f) toks)) ≤ CLI_DEFAULT_ARR_CAP
  ∧ len (program_options (f_cli f))
    + Z.of_nat (length (prog_from (is_cmd_option f) toks)) ≤ CLI_DEFAULT_ARR_CAP.

(** Every separator of [toks] comes before any positional token: the frame
    has none yet, and only tokens starting with ['-'] precede it. *)
Definition separators_lead (f : Frame) (toks : list string) : Prop :=
  ∀ l1 l2, toks = l1 ++ separator :: l2 →
    len (args (f_cli f)) = 0 ∧ Forall starts_with_dash l1.

(** What a frame reached from [f] over [toks] looks like. *)
Record scanned (f : Frame) (toks : list string) (f' : Frame) : Prop := {
  scanned_ok : frame_ok f';
  scanned_world : f_world f' = f_world f;
  scanned_execfile : execfile (f_cli f') = execfile (f_cli f);
  scanned_command : command (f_cli f') = command (f_cli f);
  scanned_args :
    items (args (f_cli f'))
    = items (args (f_cli f)) ++ (Some <$> positional_tokens toks);
  scanned_cmd :
    items (cmd_options (f_cli f'))
    = items (cmd_options (f_cli f)) ++ (Some <$> cmd_from (is_cmd_option f) toks);
  scanned_prog :
    items (program_options (f_cli f'))
    = items (program_options (f_cli f)) ++ (Some <$> prog_from (is_cmd_option f) toks);
  scanned_scope :
    is_cmd_option f' = is_cmd_option f || bool_decide (separator ∈ toks);
  scanned_separators : separators_lead f toks
}.

(** ** Entry to the loop *)

(** The world after [n] successful requests to [CLI_MALLOC]. *)
Definition after_mallocs (n : nat) (w : World) : World :=
  mkWorld (style w) (err_stream w) (alloc_ok w) (assert_text w)
          (n + malloc_calls w)%nat (n + live_blocks w)%nat.

(** The world after [n] successful requests followed by a failed one. *)
Definition after_failed_malloc (n : nat) (w : World) : World :=
  mkWorld (style w) (err_stream w) (alloc_ok w) (assert_text w)
          (S n + malloc_calls w)%nat (n + live_blocks w)%nat.

(** An array right after [cli_da_init], when the allocation succeeded and
    when it failed. *)
Definition fresh_array : CliStringArray.t :=
  CliStringArray.mk 0 CLI_DEFAULT_ARR_CAP
    (Some (replicate (Z.to_nat CLI_DEFAULT_ARR_CAP) None)).

Definition null_array : CliStringArray.t :=
  CliStringArray.mk 0 CLI_DEFAULT_ARR_CAP None.

(** The frame on entry to the loop, when the three allocations succeeded. *)
Definition entry_frame (exec : string) (cli : Cli) (w : World) : Frame :=
  mkFrame (mkCli (Some exec) (command cli) fresh_array fresh_array fresh_array)
          (after_mallocs 3 w) false.

(** ** Runs on concrete inputs *)

(** The run of the specification's example, [exec -a -- -b]. *)
Definition spec_example_run : outcome :=
  Eval vm_compute in cli_parse ["prog"; "-a"; "--"; "-b"] stale world0.

(** A run with tokens of the three classes interleaved. *)
Definition order_example_run : outcome :=
  Eval vm_compute in
    cli_parse ["prog"; "-v"; "--"; "in"; "-x"; "out"; "-y"] stale world0.

(** The second request to [CLI_MALLOC] fails, the others succeed. *)
Definition world_second_fails : World :=
  mkWorld style_initial [] (λ n, bool_decide (n ≠ 1%nat))
          (λ _, "prog: cli.h: Assertion failed." +:+ String LF "") 0 0.

(** The frame after [-a --], and after the [-b] that follows. *)
Definition scope_example_f1 : Frame :=
  Eval vm_compute in
    match parse_loop ["-a"; "--"] (entry_frame "prog" stale world0) with
    | inl f => f
    | inr _ => entry_frame "prog" stale world0
    end.

Definition scope_example_f2 : Frame :=
  Eval vm_compute in
    match parse_token "-b" scope_example_f1 with
    | inl f => f
    | inr _ => scope_example_f1
    end.

(** ** Vocabulary of the theorems *)

(** [pre] is what precedes the first separator that comes after a
    positional token: [toks] is [pre], that separator, and [post]. *)
Definition late_separator (toks pre post : list string) : Prop :=
  toks = pre ++ separator :: post
  ∧ Exists positional pre
  ∧ ∀ l1 l2, pre = l1 ++ separator :: l2 → Forall starts_with_dash l1.

(** The line printed with the user error, [last] being the last positional
    argument seen. *)
Definition double_dash_line (s : Style) (last : string) : string :=
  CLI_FORE_RED s +:+ CLI_ERROR_SYM +:+ CLI_RESET s +:+ CLI_BOLD s
  +:+ " CLI error" +:+ CLI_RESET s +:+ ": "
  +:+ double_dash_message separator last +:+ String LF "".

(** The three arrays in the order in which [cli_parse] allocates them, and
    the message printed when the allocation of each fails. *)
Definition array_fields (c : Cli) : list CliStringArray.t :=
  [args c; cmd_options c; program_options c].

Definition memory_error_messages : list string :=
  ["Unable to allocate memory for CLI arguments.";
   "Unable to allocate memory for command options.";
   "Unable to allocate memory for program options."].

(** The text written to stderr for a memory error with the message [msg],
    in the style [s]. *)
Definition memory_error_line (s : Style) (msg : string) : string :=
  CLI_FORE_RED s +:+ CLI_ERROR_SYM +:+ CLI_RESET s +:+ CLI_BOLD s
  +:+ " Memory error" +:+ CLI_RESET s +:+ ": " +:+ msg +:+ String LF "".

(** The structure as it stands when the loop is left, whichever way. *)
Definition loop_cli (res : Frame + outcome) : Cli :=
  match res with
  | inl f => f_cli f
  | inr o => final_cli o
  end.

(** The arrays a program can hold: made by a successful [cli_da_init], then
    grown by [cli_da_append]. *)
Inductive da_reachable : CliStringArray.t → Prop :=
  | reach_init w a w' :
      cli_da_init w = (a, w') → CliStringArray.data a ≠ None → da_reachable a
  | reach_append a t a' :
      da_reachable a → cli_da_append a t = Appended a' → da_reachable a'.

(** [cli_da_append] for each item of a list in turn, up to the first one
    that stops the program. *)
Fixpoint cli_da_append_all (a : CliStringArray.t) (ts : list string) : da_result :=
  match ts with
  | [] => Appended a
  | t :: r =>
      match cli_da_append a t with
      | Appended a' => cli_da_append_all a' r
      | Stopped h a' => Stopped h a'
      end
  end.

(** The states the program goes through: the initial values of the five
    globals, then any number of calls of [cli_toggle_colors]. *)
Inductive style_reachable (no_styles : bool) : Style → Prop :=
  | style_start : style_reachable no_styles style_initial
  | style_toggled s :
      style_reachable no_styles s →
      style_reachable no_styles (cli_toggle_colors no_styles s).

(** The five strings are all empty; all non-empty. *)
Definition all_inactive (s : Style) : Prop :=
  CLI_RESET s = "" ∧ CLI_BOLD s = "" ∧ CLI_DIM s = ""
  ∧ CLI_FORE_RED s = "" ∧ CLI_FORE_BRBLUE s = "".

Definition all_active (s : Style) : Prop :=
  CLI_RESET s ≠ "" ∧ CLI_BOLD s ≠ "" ∧ CLI_DIM s ≠ ""
  ∧ CLI_FORE_RED s ≠ "" ∧ CLI_FORE_BRBLUE s ≠ "".

(** A state a caller can build by assigning one of the globals. *)
Definition style_custom_bold : Style := mkStyle "" "x" "" "" "".

(** ** Vocabulary of the further properties *)

(** The three arrays of a structure are in the state [da_ok]. *)
Definition arrays_ok (c : Cli) : Prop :=
  da_ok (args c) ∧ da_ok (cmd_options c) ∧ da_ok (program_options c).

(** Every separator of the list has only tokens starting with ['-'] before
    it: none follows a positional token. *)
Definition separators_first (toks : list string) : Prop :=
  ∀ l1 l2, toks = l1 ++ separator :: l2 → Forall starts_with_dash l1.

(** A check of [separators_first] that computes: [seen] tells whether a
    positional token was met. *)
Fixpoint separators_first_b (seen : bool) (toks : list string) : bool :=
  match toks with
  | [] => true
  | t :: r =>
      if decide (t = separator) then negb seen && separators_first_b seen r
      else separators_first_b (seen || bool_decide (positional t)) r
  end.

(** The byte [c] occurs in the string [s]. *)
Fixpoint occurs (c : ascii) (s : string) : bool :=
  match s with
  | EmptyString => false
  | String x r => Ascii.eqb x c || occurs c r
  end.

(** A run that stops at the capacity assertion: six positional tokens. *)
Definition overflow_example_run : outcome :=
  Eval vm_compute in
    cli_parse ["prog"; "a"; "b"; "c"; "d"; "e"; "f"] stale world0.

(** A run that ends in the user error. *)
Definition user_example_run : outcome :=
  Eval vm_compute in cli_parse ["prog"; "-v"; "in"; "--"; "-x"] stale world0.

(** No slot below the length of an array of the structure is
    uninitialised. *)
Definition initialised (c : Cli) : Prop :=
  Forall (λ a, Forall is_Some (items a)) (array_fields c).

(** A second call on the structure and the world left by the run of the
    specification's example. *)
Definition second_example_run : outcome :=
  Eval vm_compute in
    cli_parse ["prog"; "x"; "-y"] (final_cli spec_example_run)
      (final_world spec_example_run).

(** * Sanity checks on concrete inputs *)

Example parse_spec_example :
  arrays_of (cli_parse ["prog"; "-a"; "--"; "-b"] stale world0)
  = ([], [Some "-b"], [Some "-a"]).
Proof. vm_compute. reflexivity. Qed.

Example parse_user_error_example :
  match cli_parse ["prog"; "pos1"; "--"; "-x"] stale world0 with
  | Returned CliErrorUser c w =>
      arrays_of (Returned CliErrorUser c w) = ([Some "pos1"], [], [])
      ∧ err_stream w =
          ["✖ CLI error: Double dash ('--') cannot be specified after the "
           +:+ "positional argument ('pos1')." +:+ String LF ""]
  | _ => False
  end.
Proof. vm_compute. split; reflexivity. Qed.

Example parse_overflow_example :
  match cli_parse ["prog"; "a"; "b"; "c"; "d"; "e"; "f"] stale world0 with
  | Halted AssertCapacity c _ => CliStringArray.length (args c) = 6
  | _ => False
  end.
Proof. vm_compute. reflexivity. Qed.

(** * Properties *)

(** ** The tests of the code read as predicates on tokens *)

Lemma first_char_test t :
  Ascii.eqb (char_at t 0) dash = bool_decide (starts_with_dash t).
Proof.
  destruct t as [|c r]; [reflexivity|].
  unfold char_at; simpl. destruct (Ascii.eqb_spec c dash) as [->|Hne].
  - symmetry. by apply bool_decide_eq_true.
  - symmetry. by apply bool_decide_eq_false.
Qed.

Lemma separator_test t :
  cstring t → starts_with_dash t →
  Ascii.eqb (char_at t 1) dash && Ascii.eqb (char_at t 2) NUL
  = bool_decide (t = separator).
Proof.
  destruct t as [|c1 [|c2 [|c3 r]]]; simpl; try done.
  - intros _ ->. reflexivity.
  - intros _ ->. unfold char_at; simpl.
    destruct (Ascii.eqb_spec c2 dash) as [->|Hne]; [reflexivity|].
    symmetry. apply bool_decide_eq_false. unfold separator. congruence.
  - intros (_ & _ & Hc3 & _) ->. unfold char_at; simpl.
    rewrite (proj2 (Ascii.eqb_neq c3 NUL) Hc3), andb_false_r.
    symmetry. apply bool_decide_eq_false. unfold separator. congruence.
Qed.

(** ** Arrays made by [cli_da_init] and grown by [cli_da_append] *)

Lemma da_ok_length a : da_ok a → len a = Z.of_nat (length (items a)).
Proof.
  intros (Hc & Hl & d & Hd & Hn). unfold items. rewrite Hd, length_take. lia.
Qed.

Lemma cli_da_init_ok w a w' :
  cli_da_init w = (a, w') → CliStringArray.data a ≠ None →
  da_ok a ∧ items a = [].
Proof.
  unfold cli_da_init, CLI_MALLOC. destruct (alloc_ok w (malloc_calls w));
    intros [= <- <-] Hd; simpl in *; [|done].
  split; [|reflexivity]. repeat split; simpl; try done.
  eexists. split; reflexivity.
Qed.

(** Appending below the capacity stores the item in the next free slot. *)
Lemma cli_da_append_room a t :
  da_ok a → len a < cap a →
  ∃ a', cli_da_append a t = Appended a' ∧ da_ok a'
        ∧ len a' = len a + 1 ∧ items a' = items a ++ [Some t].
Proof.
  intros (Hc & Hl & d & Hd & Hn) Hlt. unfold cli_da_append.
  destruct a as [n k p]; simpl in *. subst k p.
  unfold CLI_DEFAULT_ARR_CAP, USHRT_MODULUS in *.
  rewrite Z.mod_small by lia.
  destruct (Z.ltb_spec 5 (n + 1)) as [?|_]; [lia|].
  replace (n + 1 - 1) with n by lia.
  destruct (Z.ltb_spec n 0) as [?|_]; [lia|].
  destruct (Z.leb_spec (Z.of_nat (length d)) n) as [?|_]; [lia|]. simpl.
  eexists. split; [reflexivity|]. unfold da_ok, items; simpl.
  repeat split; try lia.
  - eexists. split; [reflexivity|]. rewrite length_insert. lia.
  - replace (Z.to_nat (n + 1)) with (S (Z.to_nat n)) by lia.
    rewrite (take_S_r _ _ (Some t)) by (apply list_lookup_insert_eq; lia).
    by rewrite take_insert_ge.
Qed.

(** Appending to a full array fires the assertion; nothing is stored. *)
Lemma cli_da_append_full a t :
  da_ok a → len a = cap a →
  cli_da_append a t = Stopped AssertCapacity (CliStringArray.set_length (len a + 1) a).
Proof.
  intros (Hc & Hl & _) Heq. unfold cli_da_append.
  destruct a as [n k p]; simpl in *. subst k.
  unfold CLI_DEFAULT_ARR_CAP, USHRT_MODULUS in *. subst n. reflexivity.
Qed.

(** ** One iteration of the loop, case by case *)

Lemma append_cases a t :
  da_ok a →
  (∃ a', cli_da_append a t = Appended a' ∧ grows a t a')
  ∨ (∃ a', cli_da_append a t = Stopped AssertCapacity a' ∧ overflows a a').
Proof.
  intros Hok. destruct (decide (len a < cap a)) as [Hlt|Hge].
  - left. destruct (cli_da_append_room a t Hok Hlt) as (a' & -> & ? & _ & ?).
    by exists a'.
  - right. assert (len a = cap a) as Heq by (destruct Hok as (_ & ? & _); lia).
    rewrite (cli_da_append_full a t Hok Heq). by eexists.
Qed.

Lemma parse_token_step t f :
  frame_ok f → cstring t → token_step t f (parse_token t f).
Proof.
  intros (Ha & Hc & Hp) Hcs. unfold parse_token.
  rewrite first_char_test. case_bool_decide as Hd.
  - rewrite (separator_test t Hcs Hd). case_bool_decide as Hs.
    + destruct (Z.ltb_spec 0 (len (args (f_cli f)))) as [Hpos|Hz].
      * by apply step_separator_late.
      * apply step_separator; [done|]. destruct Ha as (_ & ? & _); lia.
    + destruct (is_cmd_option f) eqn:Hb.
      * destruct (append_cases _ t Hc) as [(a & -> & ?)|(a & -> & ?)].
        -- by apply step_command.
        -- by apply step_command_full.
      * destruct (append_cases _ t Hp) as [(a & -> & ?)|(a & -> & ?)].
        -- by apply step_program.
        -- by apply step_program_full.
  - destruct (append_cases _ t Ha) as [(a & -> & ?)|(a & -> & ?)].
    + by apply step_positional.
    + by apply step_positional_full.
Qed.

(** ** The classes of a token list, scanned from a given scope *)

Lemma separator_dash : starts_with_dash separator.
Proof. reflexivity. Qed.

Lemma positional_not_separator t : positional t → t ≠ separator.
Proof. intros Hp ->. apply Hp, separator_dash. Qed.

Lemma positional_not_option t : positional t → ¬ option_token t.
Proof. intros Hp [Hd _]. by apply Hp. Qed.

Lemma separator_not_option : ¬ option_token separator.
Proof. by intros [_ ?]. Qed.

Lemma separator_not_positional : ¬ positional separator.
Proof. intros Hp. apply Hp, separator_dash. Qed.

Lemma option_not_positional t : option_token t → ¬ positional t.
Proof. intros [Hd _] Hp. by apply Hp. Qed.

Section class_equations.
Variables (t : string) (r : list string).

Lemma classes_positional b :
  positional t →
  positional_tokens (t :: r) = t :: positional_tokens r
  ∧ cmd_from b (t :: r) = cmd_from b r
  ∧ prog_from b (t :: r) = prog_from b r.
Proof.
  intros Hp. pose proof (positional_not_separator t Hp) as Hs.
  pose proof (positional_not_option t Hp) as Ho.
  unfold positional_tokens, cmd_from, prog_from, command_option_tokens,
    program_option_tokens.
  split; [by rewrite filter_cons_True|].
  destruct b; simpl; rewrite ?decide_False by done;
    by rewrite ?filter_cons_False.
Qed.

Lemma classes_separator b :
  t = separator →
  positional_tokens (t :: r) = positional_tokens r
  ∧ cmd_from b (t :: r) = cmd_from true r
  ∧ prog_from b (t :: r) = [].
Proof.
  intros ->. unfold positional_tokens, cmd_from, prog_from,
    command_option_tokens, program_option_tokens.
  split; [by rewrite filter_cons_False by apply separator_not_positional|].
  destruct b; simpl; rewrite ?decide_True by done;
    by rewrite ?filter_cons_False by apply separator_not_option.
Qed.

Lemma classes_option b :
  option_token t →
  positional_tokens (t :: r) = positional_tokens r
  ∧ cmd_from b (t :: r) = (if b then t :: cmd_from b r else cmd_from b r)
  ∧ prog_from b (t :: r) = (if b then [] else t :: prog_from b r).
Proof.
  intros Ho. pose proof (option_not_positional t Ho) as Hp.
  assert (t ≠ separator) as Hs by apply Ho.
  unfold positional_tokens, cmd_from, prog_from, command_option_tokens,
    program_option_tokens.
  split; [by rewrite filter_cons_False|].
  destruct b; simpl; rewrite ?decide_False by done;
    by rewrite ?filter_cons_True.
Qed.
End class_equations.

(** ** The loop as a whole *)

Lemma separators_lead_nil f : separators_lead f [].
Proof. intros [|??] ? [=]. Qed.

Lemma scanned_nil f : frame_ok f → scanned f [] f.
Proof.
  intros Hok. split; try done.
  - by rewrite app_nil_r.
  - destruct (is_cmd_option f); by rewrite app_nil_r.
  - destruct (is_cmd_option f); by rewrite app_nil_r.
  - rewrite bool_decide_eq_false_2 by apply not_elem_of_nil.
    by rewrite orb_false_r.
  - apply separators_lead_nil.
Qed.

Lemma grows_length a t a' :
  da_ok a → grows a t a' → len a' = len a + 1.
Proof.
  intros Ha [Ha' Hi]. rewrite (da_ok_length a Ha), (da_ok_length a' Ha'), Hi.
  rewrite length_app. simpl. lia.
Qed.

Lemma separators_lead_cons_dash f f1 t r :
  starts_with_dash t → len (args (f_cli f)) = len (args (f_cli f1)) →
  separators_lead f1 r → t ≠ separator ∨ len (args (f_cli f)) = 0 →
  separators_lead f (t :: r).
Proof.
  intros Hd Hlen Hr Ht [|x l1] l2; simpl; intros [= -> Hrest].
  - split; [|constructor]. destruct Ht; [done|lia].
  - destruct (Hr l1 l2 Hrest) as [Hz Hall]. split; [lia|by constructor].
Qed.

Lemma separators_lead_cons_positional f t r :
  positional t → separator ∉ r → separators_lead f (t :: r).
Proof.
  intros Hp Hr [|x l1] l2; simpl; intros [= -> ->].
  - by destruct separator_not_positional.
  - destruct Hr. apply elem_of_app. right. left.
Qed.

Lemma parse_loop_scanned toks : ∀ f f',
  Forall cstring toks → frame_ok f → parse_loop toks f = inl f' →
  scanned f toks f'.
Proof.
  induction toks as [|t r IH]; intros f f' Hcs Hok Hrun.
  { simplify_eq/=. by apply scanned_nil. }
  apply Forall_cons in Hcs as [Ht Hr]. simpl in Hrun.
  pose proof (parse_token_step t f Hok Ht) as Hst.
  destruct f as [c w b]. destruct Hok as (Ha & Hc & Hp). revert Hrun.
  destruct Hst as [a Hpos Hg| |Hsep Hz| |a Hopt Hb Hg| |a Hopt Hb Hg|];
    try done; intros Hrun; simpl in *.
  - (* positional *)
    destruct (classes_positional t r b Hpos) as (E1 & E2 & E3).
    assert (frame_ok (mkFrame (set_args a c) w b)) as Hok1
      by (unfold frame_ok; simpl; split_and!; try done; apply Hg).
    destruct (IH _ _ Hr Hok1 Hrun) as [? ? ? ? Sa Sc Sp Ss Sl]; simpl in *.
    split; simpl; try done.
    + rewrite Sa, E1. destruct Hg as [_ ->]. by rewrite <-app_assoc.
    + by rewrite Sc, E2.
    + by rewrite Sp, E3.
    + rewrite Ss. f_equal. apply bool_decide_ext. rewrite elem_of_cons.
      pose proof (positional_not_separator t Hpos). intuition congruence.
    + apply separators_lead_cons_positional; [done|].
      intros Hin. apply list_elem_of_split in Hin as (l1 & l2 & ->).
      destruct (Sl l1 l2 eq_refl) as [Hz _]. simpl in Hz.
      rewrite (grows_length _ _ _ Ha Hg) in Hz.
      destruct Ha as (_ & ? & _). lia.
  - (* separator, no positional argument yet *)
    destruct (classes_separator t r b Hsep) as (E1 & E2 & E3).
    assert (frame_ok (mkFrame c w true)) as Hok1 by done.
    destruct (IH _ _ Hr Hok1 Hrun) as [? ? ? ? Sa Sc Sp Ss Sl]; simpl in *.
    split; simpl; try done.
    + by rewrite Sa, E1.
    + by rewrite Sc, E2.
    + by rewrite Sp, E3.
    + rewrite Ss. rewrite (bool_decide_eq_true_2 (separator ∈ t :: r));
        [by rewrite orb_true_r|subst t; left].
    + eapply separators_lead_cons_dash; [by subst t| |exact Sl|by right].
      reflexivity.
  - (* option in command scope *)
    subst b. destruct (classes_option t r true Hopt) as (E1 & E2 & E3).
    assert (frame_ok (mkFrame (set_cmd_options a c) w true)) as Hok1
      by (unfold frame_ok; simpl; split_and!; try done; apply Hg).
    destruct (IH _ _ Hr Hok1 Hrun) as [? ? ? ? Sa Sc Sp Ss Sl]; simpl in *.
    split; simpl; try done.
    + by rewrite Sa, E1.
    + rewrite Sc, E2. destruct Hg as [_ ->]. by rewrite <-app_assoc.
    + eapply separators_lead_cons_dash; [apply Hopt| |exact Sl|left; apply Hopt].
      reflexivity.
  - (* option in program scope *)
    subst b. destruct (classes_option t r false Hopt) as (E1 & E2 & E3).
    assert (frame_ok (mkFrame (set_program_options a c) w false)) as Hok1
      by (unfold frame_ok; simpl; split_and!; try done; apply Hg).
    destruct (IH _ _ Hr Hok1 Hrun) as [? ? ? ? Sa Sc Sp Ss Sl]; simpl in *.
    split; simpl; try done.
    + by rewrite Sa, E1.
    + by rewrite Sc, E2.
    + rewrite Sp, E3. destruct Hg as [_ ->]. by rewrite <-app_assoc.
    + rewrite Ss. f_equal. apply bool_decide_ext. rewrite elem_of_cons.
      destruct Hopt as [_ ?]. intuition congruence.
    + eapply separators_lead_cons_dash; [apply Hopt| |exact Sl|left; apply Hopt].
      reflexivity.
Qed.

Lemma parse_loop_app pre post f :
  parse_loop (pre ++ post) f
  = match parse_loop pre f with
    | inl f' => parse_loop post f'
    | inr o => inr o
    end.
Proof.
  revert f. induction pre as [|t r IH]; intros f; simpl; [done|].
  by destruct (parse_token t f).
Qed.

(** What one iteration does when no class overflows: it goes on to a frame
    from which the rest fits, or it returns the user error at a separator
    that follows a positional argument. *)
Lemma token_step_fits t r f res :
  frame_ok f → fits_from f (t :: r) → token_step t f res →
  match res with
  | inl f1 => frame_ok f1 ∧ fits_from f1 r
  | inr (Returned e _ _) =>
      e = CliErrorUser ∧ t = separator ∧ 0 < len (args (f_cli f))
  | inr (Halted _ _ _) => False
  end.
Proof.
  destruct f as [c w b]. intros (Ha & Hc & Hp) (Fa & Fc & Fp) Hst.
  destruct Hst as [a Hpos Hg|a Hpos Hov|Hsep Hz|Hsep Hz
                  |a Hopt Hb Hg|a Hopt Hb Hov|a Hopt Hb Hg|a Hopt Hb Hov];
    simpl in *.
  - destruct (classes_positional t r b Hpos) as (E1 & E2 & E3).
    pose proof (grows_length _ _ _ Ha Hg) as Hl. rewrite E1 in Fa.
    rewrite E2 in Fc. rewrite E3 in Fp. simpl in Fa.
    unfold frame_ok, fits_from; simpl. split_and!; try done; [apply Hg|lia].
  - destruct (classes_positional t r b Hpos) as (E1 & _).
    rewrite E1 in Fa. simpl in Fa. destruct Hov as [Hfull _].
    destruct Ha as (Hcap & _). lia.
  - destruct (classes_separator t r b Hsep) as (E1 & E2 & E3).
    rewrite E1 in Fa. rewrite E2 in Fc.
    unfold frame_ok, fits_from; simpl. split_and!; try done.
    destruct Hp as (Hcap & ? & _). lia.
  - done.
  - subst b. destruct (classes_option t r true Hopt) as (E1 & E2 & E3).
    pose proof (grows_length _ _ _ Hc Hg) as Hl. rewrite E1 in Fa.
    rewrite E2 in Fc. simpl in Fc.
    unfold frame_ok, fits_from; simpl. split_and!; try done; [apply Hg|lia].
  - subst b. destruct (classes_option t r true Hopt) as (_ & E2 & _).
    rewrite E2 in Fc. simpl in Fc. destruct Hov as [Hfull _].
    destruct Hc as (Hcap & _). lia.
  - subst b. destruct (classes_option t r false Hopt) as (E1 & E2 & E3).
    pose proof (grows_length _ _ _ Hp Hg) as Hl. rewrite E1 in Fa.
    rewrite E2 in Fc. rewrite E3 in Fp. simpl in Fp.
    unfold frame_ok, fits_from; simpl. split_and!; try done; [apply Hg|lia].
  - subst b. destruct (classes_option t r false Hopt) as (_ & _ & E3).
    rewrite E3 in Fp. simpl in Fp. destruct Hov as [Hfull _].
    destruct Hp as (Hcap & _). lia.
Qed.

Lemma token_step_frame_ok t f f1 :
  frame_ok f → token_step t f (inl f1) → frame_ok f1.
Proof.
  intros (Ha & Hc & Hp) Hst.
  inversion Hst as [a ? Hg| | | |a ? ? Hg| |a ? ? Hg|]; subst;
    unfold frame_ok; simpl; split_and!; try done; apply Hg.
Qed.

(** Under the capacity precondition no assertion fires inside the loop. *)
Lemma parse_loop_fits_no_halt toks : ∀ f h c w,
  Forall cstring toks → frame_ok f → fits_from f toks →
  parse_loop toks f ≠ inr (Halted h c w).
Proof.
  induction toks as [|t r IH]; intros f h c w Hcs Hok Hfit; [done|].
  apply Forall_cons in Hcs as [Ht Hr]. simpl.
  pose proof (token_step_fits t r f _ Hok Hfit (parse_token_step t f Hok Ht)) as Hs.
  destruct (parse_token t f) as [f1|[e c1 w1|h1 c1 w1]]; [|done|done].
  destruct Hs as [Hok1 Hfit1]. by apply IH.
Qed.

(** With well-placed separators the loop runs to its end. *)
Lemma parse_loop_completes toks : ∀ f,
  Forall cstring toks → frame_ok f → fits_from f toks → separators_lead f toks →
  ∃ f', parse_loop toks f = inl f'.
Proof.
  induction toks as [|t r IH]; intros f Hcs Hok Hfit Hlead; [by eexists|].
  apply Forall_cons in Hcs as [Ht Hr]. simpl.
  pose proof (parse_token_step t f Hok Ht) as Hst.
  pose proof (token_step_fits t r f _ Hok Hfit Hst) as Hs.
  destruct (parse_token t f) as [f1|[e c1 w1|h1 c1 w1]]; [| |done].
  - destruct Hs as [Hok1 Hfit1]. apply IH; try done.
    intros l1 l2 ->.
    destruct (Hlead (t :: l1) l2 eq_refl) as [Hz Hall].
    apply Forall_cons in Hall as [Hd Hall]. split; [|done].
    inversion Hst; subst; simpl in *; done.
  - destruct Hs as (_ & -> & Hpos).
    destruct (Hlead [] r eq_refl) as [Hz _]. lia.
Qed.

(** A [return] inside the loop is the user error, at a separator met with
    a non-empty [args]; the structure is the one the loop had built. *)
Lemma parse_loop_returned toks : ∀ f e c w,
  Forall cstring toks → frame_ok f →
  parse_loop toks f = inr (Returned e c w) →
  e = CliErrorUser
  ∧ ∃ pre post f',
      toks = pre ++ separator :: post
      ∧ parse_loop pre f = inl f'
      ∧ 0 < len (args (f_cli f'))
      ∧ c = f_cli f'
      ∧ w = cli_print_error "CLI error"
              (double_dash_message separator (last_item (args c))) (f_world f').
Proof.
  induction toks as [|t r IH]; intros f e c w Hcs Hok Hrun; [done|].
  apply Forall_cons in Hcs as [Ht Hr]. simpl in Hrun.
  pose proof (parse_token_step t f Hok Ht) as Hst.
  destruct (parse_token t f) as [f1|o] eqn:E.
  - pose proof (token_step_frame_ok t f f1 Hok Hst) as Hok1.
    destruct (IH _ _ _ _ Hr Hok1 Hrun)
      as (-> & pre & post & f' & -> & Hpre & Hrest).
    split; [done|]. exists (t :: pre), post, f'. simpl. by rewrite E.
  - injection Hrun as ->. inversion Hst; subst; simpl in *.
    split; [done|]. by exists [], r, f.
Qed.

(** The loop stops at no other assertion than the one of [cli_da_append]:
    it never stores through a null pointer. *)
Lemma parse_loop_halted toks : ∀ f h c w,
  Forall cstring toks → frame_ok f →
  parse_loop toks f = inr (Halted h c w) → h = AssertCapacity.
Proof.
  induction toks as [|t r IH]; intros f h c w Hcs Hok Hrun; [done|].
  apply Forall_cons in Hcs as [Ht Hr]. simpl in Hrun.
  pose proof (parse_token_step t f Hok Ht) as Hst.
  destruct (parse_token t f) as [f1|o] eqn:E.
  - eapply IH; [done| |exact Hrun]. by eapply token_step_frame_ok.
  - injection Hrun as ->. by inversion Hst.
Qed.

(** ** From the loop to [cli_parse] *)

Lemma fresh_array_ok : da_ok fresh_array.
Proof. repeat split; try done. by eexists. Qed.

Lemma entry_frame_ok exec cli w : frame_ok (entry_frame exec cli w).
Proof. repeat split; try done; by eexists. Qed.

Lemma cli_parse_allocated exec t r cli w :
  allocations_succeed w →
  cli_parse (exec :: t :: r) cli w
  = match parse_loop (t :: r) (entry_frame exec cli w) with
    | inl f => Returned CliErrorOk (f_cli f) (f_world f)
    | inr o => o
    end.
Proof.
  intros (H1 & H2 & H3). unfold cli_parse, cli_pop_argv, cli_da_init, CLI_MALLOC.
  cbn -[parse_loop]. rewrite H1. cbn -[parse_loop]. rewrite H2.
  cbn -[parse_loop]. rewrite H3. reflexivity.
Qed.

(** The outcome of [cli_parse] when some allocation fails, by the rank of
    the first request that fails. *)
Lemma cli_parse_allocation_cases exec t r cli w :
  let n := malloc_calls w in
  (alloc_ok w n = false →
     cli_parse (exec :: t :: r) cli w
     = Returned CliErrorFatal
         (mkCli (Some exec) (command cli) null_array (cmd_options cli)
                (program_options cli))
         (cli_print_error "Memory error"
            "Unable to allocate memory for CLI arguments."
            (after_failed_malloc 0 w)))
  ∧ (alloc_ok w n = true → alloc_ok w (S n) = false →
     cli_parse (exec :: t :: r) cli w
     = Returned CliErrorFatal
         (mkCli (Some exec) (command cli) fresh_array null_array
                (program_options cli))
         (cli_print_error "Memory error"
            "Unable to allocate memory for command options."
            (after_failed_malloc 1 w)))
  ∧ (alloc_ok w n = true → alloc_ok w (S n) = true →
     alloc_ok w (S (S n)) = false →
     cli_parse (exec :: t :: r) cli w
     = Returned CliErrorFatal
         (mkCli (Some exec) (command cli) fresh_array fresh_array null_array)
         (cli_print_error "Memory error"
            "Unable to allocate memory for program options."
            (after_failed_malloc 2 w))).
Proof.
  unfold cli_parse, cli_pop_argv, cli_da_init, CLI_MALLOC. split_and!.
  - intros H1. cbn -[parse_loop]. by rewrite H1.
  - intros H1 H2. cbn -[parse_loop]. rewrite H1. cbn -[parse_loop].
    by rewrite H2.
  - intros H1 H2 H3. cbn -[parse_loop]. rewrite H1. cbn -[parse_loop].
    rewrite H2. cbn -[parse_loop]. by rewrite H3.
Qed.

Lemma fits_entry exec cli w toks :
  fits toks ↔ fits_from (entry_frame exec cli w) toks.
Proof. unfold fits, fits_from. simpl. unfold CLI_DEFAULT_ARR_CAP. lia. Qed.

(** The only [return] inside the loop is the one of line 276. *)
Lemma parse_token_returned t f e c w :
  parse_token t f = inr (Returned e c w) → e = CliErrorUser.
Proof. unfold parse_token. intros H. repeat case_match; by simplify_eq. Qed.

Lemma parse_loop_returned_user toks : ∀ f e c w,
  parse_loop toks f = inr (Returned e c w) → e = CliErrorUser.
Proof.
  induction toks as [|t r IH]; intros f e c w; simpl; [done|].
  destruct (parse_token t f) as [f1|o] eqn:E; [by apply IH|].
  intros [= ->]. by eapply parse_token_returned.
Qed.

(** A successful run: the loop ran to its end from the entry frame. *)
Lemma cli_parse_ok_inv exec toks cli w c' w' :
  toks ≠ [] → cli_parse (exec :: toks) cli w = Returned CliErrorOk c' w' →
  allocations_succeed w
  ∧ ∃ f', parse_loop toks (entry_frame exec cli w) = inl f'
          ∧ c' = f_cli f' ∧ w' = f_world f'.
Proof.
  destruct toks as [|t r]; [done|]. intros _ Hrun.
  destruct (cli_parse_allocation_cases exec t r cli w) as (F1 & F2 & F3).
  destruct (alloc_ok w (malloc_calls w)) eqn:H1;
    [|rewrite F1 in Hrun; done].
  destruct (alloc_ok w (S (malloc_calls w))) eqn:H2;
    [|rewrite F2 in Hrun; done].
  destruct (alloc_ok w (S (S (malloc_calls w)))) eqn:H3;
    [|rewrite F3 in Hrun; done].
  assert (allocations_succeed w) as Hall by done.
  split; [done|]. rewrite (cli_parse_allocated _ _ _ _ _ Hall) in Hrun.
  destruct (parse_loop (t :: r) (entry_frame exec cli w)) as [f'|o] eqn:E.
  - exists f'. by simplify_eq.
  - subst o. by apply parse_loop_returned_user in E.
Qed.

(** The three arrays after a successful run are the three classes. *)
Lemma cli_parse_ok_arrays exec toks cli w c' w' :
  toks ≠ [] → Forall cstring toks →
  cli_parse (exec :: toks) cli w = Returned CliErrorOk c' w' →
  items (args c') = Some <$> positional_tokens toks
  ∧ items (cmd_options c') = Some <$> command_option_tokens toks
  ∧ items (program_options c') = Some <$> program_option_tokens toks.
Proof.
  intros Hne Hcs Hrun.
  destruct (cli_parse_ok_inv _ _ _ _ _ _ Hne Hrun) as (_ & f' & Hloop & -> & ->).
  destruct (parse_loop_scanned _ _ _ Hcs (entry_frame_ok exec cli w) Hloop)
    as [_ _ _ _ Sa Sc Sp _ _].
  by rewrite Sa, Sc, Sp.
Qed.

(** ** Facts about the classes of the specification *)

Lemma before_sep_sublist toks : before_sep toks `sublist_of` toks.
Proof.
  induction toks as [|t r IH]; simpl; [done|].
  case_decide; [apply sublist_nil_l|by apply sublist_skip].
Qed.

Lemma after_sep_sublist toks : after_sep toks `sublist_of` toks.
Proof.
  induction toks as [|t r IH]; simpl; [done|].
  case_decide; by apply sublist_cons.
Qed.

Lemma before_sep_app l1 l2 :
  separator ∉ l1 → before_sep (l1 ++ l2) = l1 ++ before_sep l2.
Proof.
  induction l1 as [|t r IH]; simpl; [done|].
  rewrite not_elem_of_cons. intros [Hne Hr].
  rewrite decide_False by done. by rewrite IH.
Qed.

Lemma before_sep_all l : separator ∉ l → before_sep l = l.
Proof.
  intros H. rewrite <-(app_nil_r l) at 1.
  rewrite before_sep_app by done. simpl. by rewrite app_nil_r.
Qed.

Lemma after_sep_app l1 l2 :
  separator ∈ l1 → after_sep (l1 ++ l2) = after_sep l1 ++ l2.
Proof.
  induction l1 as [|t r IH]; simpl; [by intros ?%elem_of_nil|].
  case_decide as Ht; [done|].
  rewrite elem_of_cons. intros [?|Hr]; [done|by apply IH].
Qed.

(** A token that satisfies [P] sits in [filter P toks] right after the
    tokens of the same kind that come before it. *)
Lemma filter_lookup_rank {A} (P : A → Prop) `{!∀ x, Decision (P x)}
    (l1 l2 : list A) (x : A) :
  P x → filter P (l1 ++ x :: l2) !! length (filter P l1) = Some x.
Proof.
  intros HP. rewrite filter_app, filter_cons_True by done.
  apply list_lookup_middle. done.
Qed.

Lemma classes_length b toks :
  (length (positional_tokens toks) + length (cmd_from b toks)
   + length (prog_from b toks))%nat
  = length (filter (λ t, t ≠ separator) toks).
Proof.
  revert b. induction toks as [|t r IH]; intros b; [by destruct b|].
  destruct (decide (starts_with_dash t)) as [Hd|Hp].
  - destruct (decide (t = separator)) as [Hs|Hs].
    + destruct (classes_separator t r b Hs) as (-> & -> & ->).
      rewrite filter_cons_False by (by intros ?). rewrite <-(IH true).
      simpl. lia.
    + destruct (classes_option t r b (conj Hd Hs)) as (-> & -> & ->).
      rewrite filter_cons_True by done. simpl. rewrite <-(IH b).
      destruct b; simpl; lia.
  - destruct (classes_positional t r b Hp) as (-> & -> & ->).
    rewrite filter_cons_True by (by apply positional_not_separator).
    simpl. by rewrite <-(IH b).
Qed.

(** ** Classification of the tokens *)

(** C1. When [cli_parse] succeeds on [exec :: toks] with at least one token
    and no class above the default capacity, every token lands in exactly
    one array: the token at index [i] is stored in [args] if it does not
    begin with ['-'], in [program_options] if it is an option met before any
    ["--"], in [cmd_options] if it is an option met after one, each time in
    the slot that follows the earlier tokens of its class; the three arrays
    hold nothing else, and ["--"] is stored nowhere. *)
Theorem cli_parse_classifies exec toks cli w c' w' :
  toks ≠ [] → Forall cstring toks →
  cli_parse (exec :: toks) cli w = Returned CliErrorOk c' w' →
  fits toks →
  (∀ i t, toks !! i = Some t →
     (positional t →
        items (args c') !! length (positional_tokens (take i toks))
        = Some (Some t))
     ∧ (option_token t → separator ∉ take i toks →
        items (program_options c') !! length (program_option_tokens (take i toks))
        = Some (Some t))
     ∧ (option_token t → separator ∈ take i toks →
        items (cmd_options c') !! length (command_option_tokens (take i toks))
        = Some (Some t)))
  ∧ (length (items (args c')) + length (items (cmd_options c'))
     + length (items (program_options c')))%nat
    = length (filter (λ t, t ≠ separator) toks)
  ∧ (Some separator ∉ items (args c'))
  ∧ (Some separator ∉ items (cmd_options c'))
  ∧ (Some separator ∉ items (program_options c')).
Proof.
  intros Hne Hcs Hrun _.
  destruct (cli_parse_ok_arrays _ _ _ _ _ _ Hne Hcs Hrun) as (Ea & Ec & Ep).
  rewrite Ea, Ec, Ep. split_and!.
  - intros i t Hi. pose proof (take_drop_middle toks i t Hi) as Hsplit.
    split_and!.
    + intros Hp. rewrite list_lookup_fmap. unfold positional_tokens.
      pose proof (filter_lookup_rank positional (take i toks)
                    (drop (S i) toks) t Hp) as Hrank.
      rewrite Hsplit in Hrank. by rewrite Hrank.
    + intros Ho Hnot. rewrite list_lookup_fmap. unfold program_option_tokens.
      assert (before_sep toks
              = take i toks ++ t :: before_sep (drop (S i) toks)) as ->.
      { rewrite <-Hsplit at 1. rewrite before_sep_app by done. simpl.
        by rewrite decide_False by apply Ho. }
      rewrite (before_sep_all (take i toks)) by done.
      by rewrite filter_lookup_rank.
    + intros Ho Hin. rewrite list_lookup_fmap. unfold command_option_tokens.
      assert (after_sep toks
              = after_sep (take i toks) ++ t :: drop (S i) toks) as ->.
      { rewrite <-Hsplit at 1. by rewrite after_sep_app. }
      by rewrite filter_lookup_rank.
  - rewrite !length_fmap. apply (classes_length false).
  - intros (t & [= <-] & Hin)%list_elem_of_fmap.
    apply list_elem_of_filter in Hin as [Hp _].
    by apply separator_not_positional.
  - intros (t & [= <-] & Hin)%list_elem_of_fmap.
    apply list_elem_of_filter in Hin as [Ho _].
    by apply separator_not_option.
  - intros (t & [= <-] & Hin)%list_elem_of_fmap.
    apply list_elem_of_filter in Hin as [Ho _].
    by apply separator_not_option.
Qed.

Lemma cli_parse_classifies_witness :
  cli_parse ["prog"; "-a"; "--"; "-b"] stale world0
  = Returned CliErrorOk (final_cli spec_example_run) (final_world spec_example_run)
  ∧ (items (program_options (final_cli spec_example_run)) = [Some "-a"]
     ∧ items (cmd_options (final_cli spec_example_run)) = [Some "-b"]
     ∧ items (args (final_cli spec_example_run)) = [])
  ∧ (items (program_options (final_cli spec_example_run)) !! 0%nat
     = Some (Some "-a")
     ∧ items (cmd_options (final_cli spec_example_run)) !! 0%nat
       = Some (Some "-b")
     ∧ (length (items (args (final_cli spec_example_run)))
        + length (items (cmd_options (final_cli spec_example_run)))
        + length (items (program_options (final_cli spec_example_run))))%nat
       = 2%nat).
Proof.
  assert (cli_parse ["prog"; "-a"; "--"; "-b"] stale world0
          = Returned CliErrorOk (final_cli spec_example_run)
              (final_world spec_example_run)) as Hrun
    by (vm_compute; reflexivity).
  assert (["-a"; "--"; "-b"] ≠ []) as Hne by discriminate.
  assert (Forall cstring ["-a"; "--"; "-b"]) as Hcs
    by (repeat constructor; discriminate).
  assert (fits ["-a"; "--"; "-b"]) as Hfit
    by (vm_compute; repeat split; discriminate).
  destruct (cli_parse_classifies "prog" ["-a"; "--"; "-b"] stale world0
              (final_cli spec_example_run) (final_world spec_example_run)
              Hne Hcs Hrun Hfit) as (Hslot & Hlen & _).
  split; [exact Hrun|]. split; [vm_compute; by split_and!|].
  split_and!.
  - apply (Hslot 0%nat "-a" eq_refl). split; [reflexivity|discriminate].
    apply not_elem_of_nil.
  - apply (Hslot 2%nat "-b" eq_refl). split; [reflexivity|discriminate].
    right. left.
  - exact Hlen.
Defined.

(** C2. When [cli_parse] succeeds on [exec :: toks] with at least one token
    and no class above the default capacity, each array is the subsequence
    of the input made of the tokens of its class, in the order of the
    input: [args] the tokens that do not begin with ['-'], [program_options]
    the options before the first ["--"], [cmd_options] the options after
    it. *)
Theorem cli_parse_preserves_order exec toks cli w c' w' :
  toks ≠ [] → Forall cstring toks →
  cli_parse (exec :: toks) cli w = Returned CliErrorOk c' w' →
  fits toks →
  (items (args c') = Some <$> filter positional toks
   ∧ items (program_options c') = Some <$> filter option_token (before_sep toks)
   ∧ items (cmd_options c') = Some <$> filter option_token (after_sep toks))
  ∧ (items (args c') `sublist_of` (Some <$> toks)
     ∧ items (program_options c') `sublist_of` (Some <$> toks)
     ∧ items (cmd_options c') `sublist_of` (Some <$> toks)).
Proof.
  intros Hne Hcs Hrun _.
  destruct (cli_parse_ok_arrays _ _ _ _ _ _ Hne Hcs Hrun) as (Ea & Ec & Ep).
  split; [done|]. rewrite Ea, Ec, Ep. split_and!; apply fmap_sublist.
  - apply sublist_filter.
  - etrans; [apply sublist_filter|apply before_sep_sublist].
  - etrans; [apply sublist_filter|apply after_sep_sublist].
Qed.

Lemma cli_parse_preserves_order_witness :
  cli_parse ["prog"; "-v"; "--"; "in"; "-x"; "out"; "-y"] stale world0
  = Returned CliErrorOk (final_cli order_example_run)
      (final_world order_example_run)
  ∧ items (args (final_cli order_example_run))
    = (Some <$> filter positional ["-v"; "--"; "in"; "-x"; "out"; "-y"])
  ∧ items (args (final_cli order_example_run)) = [Some "in"; Some "out"]
  ∧ items (program_options (final_cli order_example_run)) = [Some "-v"]
  ∧ items (cmd_options (final_cli order_example_run)) = [Some "-x"; Some "-y"].
Proof.
  assert (cli_parse ["prog"; "-v"; "--"; "in"; "-x"; "out"; "-y"] stale world0
          = Returned CliErrorOk (final_cli order_example_run)
              (final_world order_example_run)) as Hrun
    by (vm_compute; reflexivity).
  assert (["-v"; "--"; "in"; "-x"; "out"; "-y"] ≠ []) as Hne by discriminate.
  assert (Forall cstring ["-v"; "--"; "in"; "-x"; "out"; "-y"]) as Hcs
    by (repeat constructor; discriminate).
  assert (fits ["-v"; "--"; "in"; "-x"; "out"; "-y"]) as Hfit
    by (vm_compute; repeat split; discriminate).
  destruct (cli_parse_preserves_order "prog"
              ["-v"; "--"; "in"; "-x"; "out"; "-y"] stale world0
              (final_cli order_example_run) (final_world order_example_run)
              Hne Hcs Hrun Hfit) as ((Ea & _ & _) & _).
  split; [exact Hrun|]. split; [exact Ea|].
  vm_compute. by split_and!.
Defined.

(** ** The user error *)

Lemma parse_token_separator_late f :
  0 < len (args (f_cli f)) →
  parse_token separator f
  = inr (Returned CliErrorUser (f_cli f)
           (cli_print_error "CLI error"
              (double_dash_message separator (last_item (args (f_cli f))))
              (f_world f))).
Proof.
  intros Hpos. unfold parse_token. cbn.
  by rewrite (proj2 (Z.ltb_lt _ _) Hpos).
Qed.

Lemma positional_tokens_nonempty toks :
  Exists positional toks ↔ positional_tokens toks ≠ [].
Proof.
  unfold positional_tokens. rewrite Exists_exists. split.
  - intros (t & Hin & Hp) Hnil.
    assert (t ∈ filter positional toks) as Hf by by apply list_elem_of_filter.
    rewrite Hnil in Hf. by apply elem_of_nil in Hf.
  - intros Hne. destruct (filter positional toks) as [|t r] eqn:E; [done|].
    assert (t ∈ filter positional toks) as Hf by (rewrite E; left).
    apply list_elem_of_filter in Hf as [? ?]. by exists t.
Qed.

(** The run on a prefix that ends at a late separator, whatever follows. *)
Lemma cli_parse_late_separator exec pre cli w :
  Forall cstring pre → Exists positional pre →
  (∀ l1 l2, pre = l1 ++ separator :: l2 → Forall starts_with_dash l1) →
  fits pre → allocations_succeed w →
  ∃ c' w',
    (∀ rest, cli_parse (exec :: pre ++ separator :: rest) cli w
             = Returned CliErrorUser c' w')
    ∧ items (args c') = (Some <$> positional_tokens pre)
    ∧ items (cmd_options c') = (Some <$> command_option_tokens pre)
    ∧ items (program_options c') = (Some <$> program_option_tokens pre)
    ∧ execfile c' = Some exec
    ∧ w' = emit (double_dash_line (style w) (last_item (args c')))
             (after_mallocs 3 w).
Proof.
  intros Hcs Hex Hlead Hfit Hall.
  pose proof (entry_frame_ok exec cli w) as Hok.
  destruct (parse_loop_completes pre (entry_frame exec cli w) Hcs Hok) as [f' Hloop].
  { by apply fits_entry. }
  { intros l1 l2 Heq. split; [done|by eapply Hlead]. }
  destruct (parse_loop_scanned _ _ _ Hcs Hok Hloop)
    as [Hok' Sw Se _ Sa Sc Sp _ _]. simpl in *.
  assert (0 < len (args (f_cli f'))) as Hpos.
  { destruct Hok' as (Ha' & _). rewrite (da_ok_length _ Ha'), Sa, length_fmap.
    apply positional_tokens_nonempty in Hex.
    destruct (positional_tokens pre); simpl; [done|lia]. }
  exists (f_cli f'), (cli_print_error "CLI error"
            (double_dash_message separator (last_item (args (f_cli f'))))
            (f_world f')).
  split_and!; try done.
  - intros rest. destruct pre as [|t r]; [by apply Exists_nil in Hex|].
    simpl. rewrite (cli_parse_allocated _ _ _ _ _ Hall).
    change (t :: r ++ separator :: rest) with ((t :: r) ++ separator :: rest).
    rewrite parse_loop_app, Hloop. simpl.
    by rewrite (parse_token_separator_late f' Hpos).
  - by rewrite Sw.
Qed.

(** C3. [cli_parse] returns [CliErrorUser] exactly when the pass meets a
    ["--"] while [args] is non-empty: the three allocations succeeded, the
    tokens are [pre ++ "--" :: post] with a positional token in [pre] and
    no earlier such ["--"], and the pass got through [pre] without
    overflow. The run then stops at once: the outcome is the same whatever
    follows that ["--"], and the arrays hold the tokens of [pre] only. In
    particular the pass on [exec pos1 -- ...] ends in the user error
    whatever the later tokens are. *)
Theorem cli_parse_user_error exec toks cli w :
  Forall cstring toks →
  ((∃ c' w', cli_parse (exec :: toks) cli w = Returned CliErrorUser c' w')
   ↔ allocations_succeed w
     ∧ ∃ pre post, late_separator toks pre post ∧ fits pre)
  ∧ (∀ pre post,
       late_separator toks pre post → fits pre → allocations_succeed w →
       ∃ c' w',
         (∀ rest, cli_parse (exec :: pre ++ separator :: rest) cli w
                  = Returned CliErrorUser c' w')
         ∧ items (args c') = (Some <$> positional_tokens pre)
         ∧ items (cmd_options c') = (Some <$> command_option_tokens pre)
         ∧ items (program_options c') = (Some <$> program_option_tokens pre)
         ∧ err_stream w'
           = err_stream w ++ [double_dash_line (style w) (last_item (args c'))])
  ∧ (∀ rest, allocations_succeed w →
       ∃ c' w', cli_parse (exec :: "pos1" :: "--" :: rest) cli w
                = Returned CliErrorUser c' w').
Proof.
  intros Hcs.
  assert (∀ pre post,
    late_separator toks pre post → fits pre → allocations_succeed w →
    ∃ c' w',
      (∀ rest, cli_parse (exec :: pre ++ separator :: rest) cli w
               = Returned CliErrorUser c' w')
      ∧ items (args c') = (Some <$> positional_tokens pre)
      ∧ items (cmd_options c') = (Some <$> command_option_tokens pre)
      ∧ items (program_options c') = (Some <$> program_option_tokens pre)
      ∧ err_stream w'
        = err_stream w ++ [double_dash_line (style w) (last_item (args c'))])
    as Hstop.
  { intros pre post (-> & Hex & Hlead) Hfit Hall.
    apply Forall_app in Hcs as [Hpre _].
    destruct (cli_parse_late_separator exec pre cli w Hpre Hex Hlead Hfit Hall)
      as (c' & w' & Hrun & Ea & Ec & Ep & _ & ->).
    exists c', (emit (double_dash_line (style w) (last_item (args c')))
                  (after_mallocs 3 w)).
    by split_and!. }
  split_and!; [split| exact Hstop |].
  - (* a user error was returned *)
    intros (c' & w' & Hrun).
    destruct toks as [|t r]; [done|].
    destruct (cli_parse_allocation_cases exec t r cli w) as (F1 & F2 & F3).
    destruct (alloc_ok w (malloc_calls w)) eqn:H1;
      [|rewrite F1 in Hrun; done].
    destruct (alloc_ok w (S (malloc_calls w))) eqn:H2;
      [|rewrite F2 in Hrun; done].
    destruct (alloc_ok w (S (S (malloc_calls w)))) eqn:H3;
      [|rewrite F3 in Hrun; done].
    assert (allocations_succeed w) as Hall by done.
    split; [done|]. rewrite (cli_parse_allocated _ _ _ _ _ Hall) in Hrun.
    pose proof (entry_frame_ok exec cli w) as Hok.
    destruct (parse_loop (t :: r) (entry_frame exec cli w)) as [f'|o] eqn:E;
      [done|]. subst o.
    destruct (parse_loop_returned _ _ _ _ _ Hcs Hok E)
      as (_ & pre & post & f' & Heq & Hloop & Hpos & _).
    rewrite Heq in Hcs. apply Forall_app in Hcs as [Hpre _].
    destruct (parse_loop_scanned _ _ _ Hpre Hok Hloop)
      as [(Ha' & Hc' & Hp') _ _ _ Sa Sc Sp _ Sl]. simpl in *.
    exists pre, post. split; [split_and!|].
    + done.
    + apply positional_tokens_nonempty. intros Hnil.
      rewrite (da_ok_length _ Ha'), Sa, Hnil in Hpos. simpl in Hpos. lia.
    + intros l1 l2 Hsplit. by destruct (Sl l1 l2 Hsplit).
    + unfold fits.
      pose proof (da_ok_length _ Ha') as La. rewrite Sa, length_fmap in La.
      pose proof (da_ok_length _ Hc') as Lc. rewrite Sc, length_fmap in Lc.
      pose proof (da_ok_length _ Hp') as Lp. rewrite Sp, length_fmap in Lp.
      destruct Ha' as (Ka & ? & _), Hc' as (Kc & ? & _), Hp' as (Kp & ? & _).
      rewrite <-La, <-Lc, <-Lp. lia.
  - (* the pass meets a late separator *)
    intros (Hall & pre & post & Hlate & Hfit).
    destruct (Hstop pre post Hlate Hfit Hall) as (c' & w' & Hrun & _).
    exists c', w'. destruct Hlate as (-> & _). apply Hrun.
  - intros rest Hall.
    destruct (cli_parse_late_separator exec ["pos1"] cli w) as (c' & w' & Hrun & _).
    + repeat constructor; discriminate.
    + apply Exists_cons_hd. by intros ?.
    + intros [|? [|??]] ? [=].
    + unfold fits, CLI_DEFAULT_ARR_CAP. simpl. lia.
    + done.
    + exists c', w'. apply (Hrun rest).
Qed.

Lemma cli_parse_user_error_witness :
  ∃ c' w',
    cli_parse ["prog"; "pos1"; "--"; "-x"] stale world0
    = Returned CliErrorUser c' w'
    ∧ items (args c') = [Some "pos1"]
    ∧ items (cmd_options c') = []
    ∧ items (program_options c') = [].
Proof.
  assert (Forall cstring ["pos1"; "--"; "-x"]) as Hcs
    by (repeat constructor; discriminate).
  assert (allocations_succeed world0) as Hall by (by split_and!).
  assert (late_separator ["pos1"; "--"; "-x"] ["pos1"] ["-x"]) as Hlate.
  { split_and!; [reflexivity| |].
    - apply Exists_cons_hd. intros Hd. vm_compute in Hd. discriminate Hd.
    - intros [|? [|??]] ? [=]. }
  assert (fits ["pos1"]) as Hfit
    by (unfold fits, CLI_DEFAULT_ARR_CAP; simpl; lia).
  destruct (cli_parse_user_error "prog" ["pos1"; "--"; "-x"] stale world0 Hcs)
    as (_ & Hstop & _).
  destruct (Hstop ["pos1"] ["-x"] Hlate Hfit Hall)
    as (c' & w' & Hrun & Ea & Ec & Ep & _).
  exists c', w'. split; [apply (Hrun ["-x"])|]. by rewrite Ea, Ec, Ep.
Defined.

(** ** The invocation path alone *)

(** C4. On an argument vector that holds only the invocation path,
    [cli_parse] succeeds; [execfile] is that path and the three arrays are
    zero (length 0, capacity 0, [data] null); no request is made to the
    allocator and nothing is printed. *)
Theorem cli_parse_no_tokens exec cli w :
  ∃ c',
    cli_parse [exec] cli w = Returned CliErrorOk c' w
    ∧ execfile c' = Some exec
    ∧ args c' = CliStringArray.mk 0 0 None
    ∧ cmd_options c' = CliStringArray.mk 0 0 None
    ∧ program_options c' = CliStringArray.mk 0 0 None.
Proof. eexists. by split_and!. Qed.

(** ** Allocation failure *)

(** C7. With at least one token after the invocation path, if one of the
    three allocations fails ([args], [cmd_options], [program_options], in
    that order, [k] being the rank of the first that fails), [cli_parse]
    writes the memory error of that array to stderr, and nothing else, and
    returns [CliErrorFatal]; the outcome does not depend on the tokens,
    none of which is stored; the [k] arrays allocated before keep their
    blocks, which stay live, no further allocation is requested, and the
    arrays after the failing one are not written. *)
Theorem cli_parse_allocation_failure exec t r cli w :
  ¬ allocations_succeed w →
  ∃ k msg c' w',
    memory_error_messages !! k = Some msg
    ∧ alloc_ok w (k + malloc_calls w)%nat = false
    ∧ (∀ j, (j < k)%nat → alloc_ok w (j + malloc_calls w)%nat = true)
    ∧ cli_parse (exec :: t :: r) cli w = Returned CliErrorFatal c' w'
    ∧ (∀ t' r', cli_parse (exec :: t' :: r') cli w = Returned CliErrorFatal c' w')
    ∧ err_stream w' = err_stream w ++ [memory_error_line (style w) msg]
    ∧ style w' = style w
    ∧ malloc_calls w' = (S k + malloc_calls w)%nat
    ∧ live_blocks w' = (k + live_blocks w)%nat
    ∧ array_fields c'
      = replicate k fresh_array ++ null_array :: drop (S k) (array_fields cli)
    ∧ Forall (λ a, items a = []) (take (S k) (array_fields c')).
Proof.
  intros Hfail.
  pose proof (λ t' r', cli_parse_allocation_cases exec t' r' cli w) as Hc.
  destruct (alloc_ok w (malloc_calls w)) eqn:H1;
    [destruct (alloc_ok w (S (malloc_calls w))) eqn:H2;
      [destruct (alloc_ok w (S (S (malloc_calls w)))) eqn:H3|]|].
  - by destruct Hfail.
  - exists 2%nat, "Unable to allocate memory for program options.",
      (mkCli (Some exec) (command cli) fresh_array fresh_array null_array),
      (cli_print_error "Memory error"
         "Unable to allocate memory for program options."
         (after_failed_malloc 2 w)).
    split_and!; try reflexivity.
    + exact H3.
    + intros [|[|j]] Hj; [exact H1|exact H2|lia].
    + by apply (Hc t r).
    + intros t' r'. by apply (Hc t' r').
    + by repeat constructor.
  - exists 1%nat, "Unable to allocate memory for command options.",
      (mkCli (Some exec) (command cli) fresh_array null_array
             (program_options cli)),
      (cli_print_error "Memory error"
         "Unable to allocate memory for command options."
         (after_failed_malloc 1 w)).
    split_and!; try reflexivity.
    + exact H2.
    + intros [|j] Hj; [exact H1|lia].
    + by apply (Hc t r).
    + intros t' r'. by apply (Hc t' r').
    + by repeat constructor.
  - exists 0%nat, "Unable to allocate memory for CLI arguments.",
      (mkCli (Some exec) (command cli) null_array (cmd_options cli)
             (program_options cli)),
      (cli_print_error "Memory error"
         "Unable to allocate memory for CLI arguments."
         (after_failed_malloc 0 w)).
    split_and!; try reflexivity.
    + exact H1.
    + intros j Hj. lia.
    + by apply (Hc t r).
    + intros t' r'. by apply (Hc t' r').
    + by repeat constructor.
Qed.

Lemma cli_parse_allocation_failure_witness :
  ∃ c' w',
    cli_parse ["prog"; "-a"; "x"] stale world_second_fails
    = Returned CliErrorFatal c' w'
    ∧ err_stream w'
      = ["✖ Memory error: Unable to allocate memory for command options."
         +:+ String LF ""]
    ∧ malloc_calls w' = 2%nat
    ∧ live_blocks w' = 1%nat
    ∧ array_fields c' = [fresh_array; null_array; program_options stale].
Proof.
  destruct (cli_parse_allocation_failure "prog" "-a" ["x"] stale
              world_second_fails)
    as (k & msg & c' & w' & Hm & Hk & Hj & Hrun & _ & Herr & _ & Hcalls
        & Hlive & Harr & _).
  - intros (_ & H2 & _). discriminate H2.
  - exists c', w'.
    assert (k = 1%nat) as ->.
    { destruct k as [|[|[|k]]].
      - vm_compute in Hk. discriminate Hk.
      - reflexivity.
      - assert (1 < 2)%nat as Hlt by lia. specialize (Hj 1%nat Hlt).
        vm_compute in Hj. discriminate Hj.
      - discriminate Hm. }
    injection Hm as <-.
    split; [exact Hrun|]. split; [exact Herr|]. split; [exact Hcalls|].
    split; [exact Hlive|exact Harr].
Defined.

(** ** What the loop leaves alone *)

Lemma parse_token_command t f :
  command (loop_cli (parse_token t f)) = command (f_cli f).
Proof. unfold parse_token. repeat case_match; reflexivity. Qed.

Lemma parse_loop_command toks : ∀ f,
  command (loop_cli (parse_loop toks f)) = command (f_cli f).
Proof.
  induction toks as [|t r IH]; intros f; simpl; [done|].
  pose proof (parse_token_command t f) as Ht.
  destruct (parse_token t f) as [f1|o]; simpl in *; [|done].
  by rewrite IH.
Qed.

(** C10. With at least one token after the invocation path, the [command]
    field keeps the value it had before the call, however [cli_parse] ends;
    with the invocation path alone the whole structure is zeroed and
    [command] is null. *)
Theorem cli_parse_command_field exec cli w :
  (∀ t r, command (final_cli (cli_parse (exec :: t :: r) cli w)) = command cli)
  ∧ command (final_cli (cli_parse [exec] cli w)) = None.
Proof.
  split; [|reflexivity]. intros t r.
  destruct (cli_parse_allocation_cases exec t r cli w) as (F1 & F2 & F3).
  destruct (alloc_ok w (malloc_calls w)) eqn:H1; [|by rewrite F1].
  destruct (alloc_ok w (S (malloc_calls w))) eqn:H2; [|by rewrite F2].
  destruct (alloc_ok w (S (S (malloc_calls w)))) eqn:H3; [|by rewrite F3].
  rewrite cli_parse_allocated by done.
  pose proof (parse_loop_command (t :: r) (entry_frame exec cli w)) as Hc.
  by destruct (parse_loop (t :: r) (entry_frame exec cli w)).
Qed.

Example command_kept :
  command (final_cli (cli_parse ["prog"; "-a"; "x"] stale world0)) = Some "keep"
  ∧ command (final_cli (cli_parse ["prog"] stale world0)) = None.
Proof. vm_compute. split; reflexivity. Qed.

(** ** The scope of the options *)

Lemma parse_token_scope_kept t f f1 :
  parse_token t f = inl f1 → is_cmd_option f = true → is_cmd_option f1 = true.
Proof.
  unfold parse_token. intros H Hb. rewrite Hb in H.
  repeat case_match; by simplify_eq.
Qed.

(** [cmd_options] is written in command scope only. *)
Lemma parse_token_cmd_written t f f1 :
  parse_token t f = inl f1 →
  cmd_options (f_cli f1) ≠ cmd_options (f_cli f) → is_cmd_option f = true.
Proof.
  unfold parse_token. intros H Hne.
  destruct (is_cmd_option f); [done|].
  repeat case_match; by simplify_eq.
Qed.

(** In command scope [program_options] is not written. *)
Lemma parse_token_program_kept t f :
  is_cmd_option f = true →
  program_options (loop_cli (parse_token t f)) = program_options (f_cli f).
Proof.
  unfold parse_token. intros ->. repeat case_match; reflexivity.
Qed.

Lemma parse_loop_command_scope toks : ∀ f,
  is_cmd_option f = true →
  program_options (loop_cli (parse_loop toks f)) = program_options (f_cli f)
  ∧ ∀ f', parse_loop toks f = inl f' → is_cmd_option f' = true.
Proof.
  induction toks as [|t r IH]; intros f Hb; simpl.
  { split; [done|]. by intros f' [= <-]. }
  pose proof (parse_token_program_kept t f Hb) as Hp.
  pose proof (parse_token_scope_kept t f) as Hs.
  destruct (parse_token t f) as [f1|o]; simpl in *; [|done].
  destruct (IH f1 (Hs f1 eq_refl Hb)) as [Hp1 Hs1].
  split; [by rewrite Hp1|done].
Qed.

(** C5. The scope only moves forward. Let the pass have consumed [pre] and
    then the token [t]; if it was in command scope already, or if [t] was
    appended to [cmd_options], then it is in command scope after [t], it
    stays there over any further tokens [rest], and [program_options] is
    never written again, however the pass over [rest] ends. *)
Theorem scope_switches_forward_only f pre t rest f1 f2 :
  parse_loop pre f = inl f1 →
  parse_token t f1 = inl f2 →
  is_cmd_option f1 = true ∨ cmd_options (f_cli f2) ≠ cmd_options (f_cli f1) →
  is_cmd_option f2 = true
  ∧ parse_loop (pre ++ t :: rest) f = parse_loop rest f2
  ∧ program_options (loop_cli (parse_loop rest f2)) = program_options (f_cli f1)
  ∧ (∀ f3, parse_loop rest f2 = inl f3 → is_cmd_option f3 = true).
Proof.
  intros Hpre Ht Hscope.
  assert (is_cmd_option f1 = true) as Hb1.
  { destruct Hscope as [?|Hne]; [done|by eapply parse_token_cmd_written]. }
  pose proof (parse_token_scope_kept t f1 f2 Ht Hb1) as Hb2.
  destruct (parse_loop_command_scope rest f2 Hb2) as [Hp Hs].
  split_and!; try done.
  - rewrite parse_loop_app, Hpre. simpl. by rewrite Ht.
  - rewrite Hp. pose proof (parse_token_program_kept t f1 Hb1) as Hk.
    by rewrite Ht in Hk.
Qed.

Lemma scope_switches_forward_only_witness :
  parse_loop ["-a"; "--"] (entry_frame "prog" stale world0) = inl scope_example_f1
  ∧ parse_token "-b" scope_example_f1 = inl scope_example_f2
  ∧ items (cmd_options (f_cli scope_example_f2)) = [Some "-b"]
  ∧ program_options
      (loop_cli (parse_loop ["-c"; "x"; "-d"] scope_example_f2))
    = program_options (f_cli scope_example_f1)
  ∧ items (program_options (f_cli scope_example_f1)) = [Some "-a"].
Proof.
  assert (parse_loop ["-a"; "--"] (entry_frame "prog" stale world0)
          = inl scope_example_f1) as H1 by (vm_compute; reflexivity).
  assert (parse_token "-b" scope_example_f1 = inl scope_example_f2) as H2
    by (vm_compute; reflexivity).
  assert (cmd_options (f_cli scope_example_f2)
          ≠ cmd_options (f_cli scope_example_f1)) as Hne
    by (vm_compute; discriminate).
  destruct (scope_switches_forward_only (entry_frame "prog" stale world0)
              ["-a"; "--"] "-b" ["-c"; "x"; "-d"]
              scope_example_f1 scope_example_f2 H1 H2 (or_intror Hne))
    as (_ & _ & Hp & _).
  split; [exact H1|]. split; [exact H2|].
  split; [vm_compute; reflexivity|]. split; [exact Hp|].
  vm_compute; reflexivity.
Defined.

(** ** The capacity invariant *)

Lemma da_reachable_ok a : da_reachable a → da_ok a.
Proof.
  induction 1 as [w a w' Hinit Hd|a t a' _ IH Happ].
  - by destruct (cli_da_init_ok w a w' Hinit Hd).
  - destruct (append_cases a t IH) as [(a1 & E & Hg)|(a1 & E & _)];
      rewrite E in Happ; [|done].
    injection Happ as <-. apply Hg.
Qed.

Lemma cli_da_append_all_reachable ts : ∀ a,
  da_reachable a →
  (len a + Z.of_nat (length ts) ≤ cap a →
     ∃ a', cli_da_append_all a ts = Appended a' ∧ da_reachable a'
           ∧ items a' = items a ++ (Some <$> ts))
  ∧ (cap a < len a + Z.of_nat (length ts) →
     ∃ a', cli_da_append_all a ts = Stopped AssertCapacity a').
Proof.
  induction ts as [|t r IH]; intros a Hr; simpl.
  { pose proof (da_reachable_ok a Hr) as (_ & ? & _). split.
    - intros _. exists a. by rewrite app_nil_r.
    - lia. }
  pose proof (da_reachable_ok a Hr) as Hok.
  destruct (decide (len a < cap a)) as [Hlt|Hge].
  - destruct (cli_da_append_room a t Hok Hlt) as (a1 & E & Hok1 & Hl & Hi).
    rewrite E. assert (da_reachable a1) as Hr1 by by eapply reach_append.
    assert (cap a1 = cap a) as Hc
      by (destruct Hok as (-> & _), Hok1 as (-> & _); done).
    destruct (IH a1 Hr1) as [Hfit Hover]. split.
    + intros Hle. destruct Hfit as (a' & Happ & Hr' & Hi'); [lia|].
      exists a'. split_and!; try done.
      by rewrite Hi', Hi, <-app_assoc.
    + intros Hgt. apply Hover. lia.
  - assert (len a = cap a) as Heq by (destruct Hok as (_ & ? & _); lia).
    rewrite (cli_da_append_full a t Hok Heq). split; [lia|by eexists].
Qed.

Lemma cli_parse_fits_no_halt exec toks cli w h c' w' :
  Forall cstring toks → fits toks →
  cli_parse (exec :: toks) cli w ≠ Halted h c' w'.
Proof.
  intros Hcs Hfit. destruct toks as [|t r]; [done|].
  destruct (cli_parse_allocation_cases exec t r cli w) as (F1 & F2 & F3).
  destruct (alloc_ok w (malloc_calls w)) eqn:H1; [|by rewrite F1].
  destruct (alloc_ok w (S (malloc_calls w))) eqn:H2; [|by rewrite F2].
  destruct (alloc_ok w (S (S (malloc_calls w)))) eqn:H3; [|by rewrite F3].
  rewrite cli_parse_allocated by done.
  pose proof (parse_loop_fits_no_halt (t :: r) (entry_frame exec cli w) h c' w'
                Hcs (entry_frame_ok exec cli w)
                (proj1 (fits_entry exec cli w (t :: r)) Hfit)) as Hno.
  destruct (parse_loop (t :: r) (entry_frame exec cli w)) as [f'|o]; [done|].
  intros ->. by apply Hno.
Qed.

(** C6. An array made by [cli_da_init] and grown by [cli_da_append] has
    [length <= capacity]. Below the capacity an append succeeds, stores the
    item in the next slot and keeps the array in that state; appending [n]
    items to such an array succeeds when they fit and reaches the failed
    assertion when they do not; at the capacity, an append stops the program
    at the assertion and the block is left as it was. When no class of the
    input exceeds the default capacity, no assertion fires in
    [cli_parse]. *)
Theorem growable_array_invariant a :
  da_reachable a →
  (0 ≤ len a ≤ cap a ∧ cap a = CLI_DEFAULT_ARR_CAP)
  ∧ (∀ t, len a < cap a →
       ∃ a', cli_da_append a t = Appended a' ∧ da_reachable a'
             ∧ len a' = len a + 1 ∧ len a' ≤ cap a'
             ∧ items a' = items a ++ [Some t])
  ∧ (∀ t, len a = cap a →
       ∃ a', cli_da_append a t = Stopped AssertCapacity a'
             ∧ CliStringArray.data a' = CliStringArray.data a)
  ∧ (∀ ts,
       (len a + Z.of_nat (length ts) ≤ cap a →
          ∃ a', cli_da_append_all a ts = Appended a'
                ∧ items a' = items a ++ (Some <$> ts))
       ∧ (cap a < len a + Z.of_nat (length ts) →
          ∃ a', cli_da_append_all a ts = Stopped AssertCapacity a'))
  ∧ (∀ exec toks cli w h c' w',
       Forall cstring toks → fits toks →
       cli_parse (exec :: toks) cli w ≠ Halted h c' w').
Proof.
  intros Hr. pose proof (da_reachable_ok a Hr) as Hok.
  refine (conj _ (conj _ (conj _ (conj _ _)))).
  - destruct Hok as (? & ? & _). by split.
  - intros t Hlt.
    destruct (cli_da_append_room a t Hok Hlt) as (a' & E & Hok' & Hl & Hi).
    exists a'. refine (conj E (conj _ (conj Hl (conj _ Hi)))).
    + by eapply reach_append.
    + apply Hok'.
  - intros t Heq. rewrite (cli_da_append_full a t Hok Heq). by eexists.
  - intros ts. destruct (cli_da_append_all_reachable ts a Hr) as [Hfit Hover].
    split; [|done]. intros Hle.
    destruct (Hfit Hle) as (a' & ? & _ & ?). by exists a'.
  - intros exec toks cli w h c' w'. apply cli_parse_fits_no_halt.
Qed.

Lemma growable_array_invariant_witness :
  (∃ a', cli_da_append_all fresh_array ["a"; "b"; "c"; "d"; "e"] = Appended a'
         ∧ items a' = [Some "a"; Some "b"; Some "c"; Some "d"; Some "e"])
  ∧ (∃ a', cli_da_append_all fresh_array ["a"; "b"; "c"; "d"; "e"; "f"]
           = Stopped AssertCapacity a').
Proof.
  assert (da_reachable fresh_array) as Hr.
  { apply (reach_init world0 fresh_array (after_mallocs 1 world0));
      [reflexivity|discriminate]. }
  destruct (growable_array_invariant fresh_array Hr) as (_ & _ & _ & Hall & _).
  split.
  - destruct (Hall ["a"; "b"; "c"; "d"; "e"]) as [Hfit _].
    destruct Hfit as (a' & E & Hi);
      [vm_compute; intros Hgt; discriminate Hgt|].
    exists a'. split; [exact E|exact Hi].
  - destruct (Hall ["a"; "b"; "c"; "d"; "e"; "f"]) as [_ Hover].
    apply Hover. vm_compute. reflexivity.
Defined.

(** ** The style state *)

Lemma toggle_initial : cli_toggle_colors false style_initial = style_ansi.
Proof. reflexivity. Qed.

Lemma toggle_ansi : cli_toggle_colors false style_ansi = style_initial.
Proof. reflexivity. Qed.

Lemma style_reachable_cases no_styles s :
  style_reachable no_styles s →
  s = style_initial ∨ (no_styles = false ∧ s = style_ansi).
Proof.
  induction 1 as [|s _ [->|[-> ->]]]; [by left| |].
  - destruct no_styles; [by left|right; by rewrite toggle_initial].
  - left. apply toggle_ansi.
Qed.

(** C8, as stated, fails: from a state in which only [CLI_BOLD] was set,
    two toggles end with [CLI_BOLD] empty. *)
Lemma toggle_twice_counterexample :
  cli_toggle_colors false (cli_toggle_colors false style_custom_bold)
  ≠ style_custom_bold.
Proof. discriminate. Qed.

(** C8, amended. From every state the program reaches from the initial
    values by calls of [cli_toggle_colors], two toggles in succession give
    the five strings their values back. *)
Theorem toggle_twice_reachable no_styles s :
  style_reachable no_styles s →
  cli_toggle_colors no_styles (cli_toggle_colors no_styles s) = s.
Proof.
  intros [->|[-> ->]]%style_reachable_cases.
  - by destruct no_styles.
  - reflexivity.
Qed.

Lemma toggle_twice_reachable_witness :
  style_reachable false style_ansi
  ∧ cli_toggle_colors false (cli_toggle_colors false style_ansi) = style_ansi.
Proof.
  assert (style_reachable false style_ansi) as Hr
    by apply (style_toggled false style_initial (style_start false)).
  split; [exact Hr|exact (toggle_twice_reachable false style_ansi Hr)].
Defined.

(** C9. The five strings are all empty at program start, and in every state
    reached by calls of [cli_toggle_colors] they are all non-empty or all
    empty; with styles compiled in, a call takes a reachable state in which
    they are all empty to one in which they are all non-empty, and back. *)
Theorem style_all_or_nothing no_styles s :
  style_reachable no_styles s →
  all_inactive style_initial
  ∧ (all_active s ∨ all_inactive s)
  ∧ (no_styles = false →
     (all_inactive s → all_active (cli_toggle_colors no_styles s))
     ∧ (all_active s → all_inactive (cli_toggle_colors no_styles s))).
Proof.
  intros Hr. split; [done|].
  apply style_reachable_cases in Hr as [->|[-> ->]].
  - split; [by right|]. intros ->. split; [intros _|by intros [? _]].
    by split_and!.
  - split; [left; by split_and!|]. intros _.
    split; [by intros [? _]|by intros _].
Qed.

Lemma style_all_or_nothing_witness :
  all_active (cli_toggle_colors false style_initial)
  ∧ all_inactive
      (cli_toggle_colors false (cli_toggle_colors false style_initial)).
Proof.
  assert (style_reachable false style_initial) as H0 by constructor.
  assert (style_reachable false (cli_toggle_colors false style_initial)) as H1
    by by constructor.
  destruct (style_all_or_nothing false style_initial H0) as (Hi & _ & Hflip).
  destruct (style_all_or_nothing false _ H1) as (_ & _ & Hflip1).
  destruct (Hflip eq_refl) as [Hon _]. destruct (Hflip1 eq_refl) as [_ Hoff].
  split; [exact (Hon Hi)|exact (Hoff (Hon Hi))].
Defined.

(** * Further properties of the code *)

(** ** What one iteration does to the world and to the arrays *)

Lemma parse_token_world t f :
  match parse_token t f with
  | inl f1 => f_world f1 = f_world f
  | inr (Returned e c w) =>
      e = CliErrorUser ∧ c = f_cli f ∧ ∃ line, w = emit line (f_world f)
  | inr (Halted h _ w) => w = assertion_failed h (f_world f)
  end.
Proof.
  unfold parse_token, cli_print_error.
  repeat case_match; simplify_eq; eauto.
Qed.

Lemma parse_loop_world toks : ∀ f,
  match parse_loop toks f with
  | inl f' => f_world f' = f_world f
  | inr (Returned e c w) => e = CliErrorUser ∧ ∃ line, w = emit line (f_world f)
  | inr (Halted h _ w) => w = assertion_failed h (f_world f)
  end.
Proof.
  induction toks as [|t r IH]; intros f; simpl; [done|].
  pose proof (parse_token_world t f) as Ht.
  destruct (parse_token t f) as [f1|[e c w|h c w]].
  - specialize (IH f1). rewrite Ht in IH. exact IH.
  - destruct Ht as (-> & _ & Hline). by split.
  - done.
Qed.

Lemma parse_token_execfile t f :
  execfile (loop_cli (parse_token t f)) = execfile (f_cli f).
Proof. unfold parse_token. repeat case_match; reflexivity. Qed.

Lemma parse_loop_execfile toks : ∀ f,
  execfile (loop_cli (parse_loop toks f)) = execfile (f_cli f).
Proof.
  induction toks as [|t r IH]; intros f; simpl; [done|].
  pose proof (parse_token_execfile t f) as Ht.
  destruct (parse_token t f) as [f1|o]; simpl in *; [|done].
  by rewrite IH.
Qed.

(** Whatever the token is, an iteration keeps the arrays in the state
    [da_ok], or stops at the capacity assertion. *)
Lemma parse_token_arrays t f :
  frame_ok f →
  match parse_token t f with
  | inl f1 => frame_ok f1
  | inr (Returned _ c _) => arrays_ok c
  | inr (Halted h _ _) => h = AssertCapacity
  end.
Proof.
  intros (Ha & Hc & Hp). unfold parse_token.
  destruct (append_cases _ t Ha) as [(a1 & E1 & G1 & _)|(a1 & E1 & _)];
  destruct (append_cases _ t Hc) as [(a2 & E2 & G2 & _)|(a2 & E2 & _)];
  destruct (append_cases _ t Hp) as [(a3 & E3 & G3 & _)|(a3 & E3 & _)];
    rewrite E1, E2, E3; repeat case_match; simplify_eq;
    try done; by unfold frame_ok, arrays_ok.
Qed.

Lemma parse_loop_arrays toks : ∀ f,
  frame_ok f →
  match parse_loop toks f with
  | inl f' => frame_ok f'
  | inr (Returned _ c _) => arrays_ok c
  | inr (Halted h _ _) => h = AssertCapacity
  end.
Proof.
  induction toks as [|t r IH]; intros f Hok; simpl; [done|].
  pose proof (parse_token_arrays t f Hok) as Ht.
  destruct (parse_token t f) as [f1|[e c w|h c w]]; [by apply IH|done|done].
Qed.

(** ** The two ways through [cli_parse] when there are tokens *)

Lemma cli_parse_shape exec t r cli w :
  (allocations_succeed w
   ∧ cli_parse (exec :: t :: r) cli w
     = match parse_loop (t :: r) (entry_frame exec cli w) with
       | inl f => Returned CliErrorOk (f_cli f) (f_world f)
       | inr o => o
       end)
  ∨ (¬ allocations_succeed w
     ∧ ∃ k msg c,
         (k < 3)%nat
         ∧ cli_parse (exec :: t :: r) cli w
           = Returned CliErrorFatal c
               (cli_print_error "Memory error" msg (after_failed_malloc k w))
         ∧ execfile c = Some exec
         ∧ array_fields c
           = replicate k fresh_array ++ null_array :: drop (S k) (array_fields cli)).
Proof.
  destruct (cli_parse_allocation_cases exec t r cli w) as (F1 & F2 & F3).
  destruct (alloc_ok w (malloc_calls w)) eqn:H1;
    [destruct (alloc_ok w (S (malloc_calls w))) eqn:H2;
      [destruct (alloc_ok w (S (S (malloc_calls w)))) eqn:H3|]|].
  - left. assert (allocations_succeed w) as Hall by done.
    split; [done|]. by apply cli_parse_allocated.
  - right. split; [intros (_ & _ & ?); congruence|].
    exists 2%nat. eexists _, _. split; [lia|]. split; [by apply F3|done].
  - right. split; [intros (_ & ? & _); congruence|].
    exists 1%nat. eexists _, _. split; [lia|]. split; [by apply F2|done].
  - right. split; [intros (? & _); congruence|].
    exists 0%nat. eexists _, _. split; [lia|]. split; [by apply F1|done].
Qed.

(** ** How a run can stop *)



(** ** What [cli_parse] does to the rest of the program state *)

(** X2. Whenever the argument vector is not empty, [execfile] is the
    invocation path after the call, however the call ends: success, user
    error, fatal error or failed assertion. *)
Theorem cli_parse_sets_execfile exec toks cli w :
  execfile (final_cli (cli_parse (exec :: toks) cli w)) = Some exec.
Proof.
  destruct toks as [|t r]; [reflexivity|].
  destruct (cli_parse_shape exec t r cli w)
    as [(Hall & E)|(_ & k & msg & c & _ & E & He & _)]; rewrite E; [|done].
  pose proof (parse_loop_execfile (t :: r) (entry_frame exec cli w)) as Hx.
  by destruct (parse_loop (t :: r) (entry_frame exec cli w)).
Qed.


(** ** The arrays handed to the caller *)

Lemma grows_initialised a t a' :
  grows a t a' → Forall is_Some (items a) → Forall is_Some (items a').
Proof.
  intros [_ ->] Hi. apply Forall_app. split; [done|]. by repeat constructor.
Qed.

Lemma parse_token_initialised t f :
  frame_ok f → initialised (f_cli f) →
  match parse_token t f with
  | inl f1 => initialised (f_cli f1)
  | inr (Returned _ c _) => initialised c
  | inr (Halted _ _ _) => True
  end.
Proof.
  intros (Ha & Hc & Hp) Hi. unfold initialised, array_fields in *.
  apply Forall_cons in Hi as [Ia Hi]. apply Forall_cons in Hi as [Ic Hi].
  apply Forall_cons in Hi as [Ip _]. unfold parse_token.
  destruct (append_cases _ t Ha) as [(a1 & E1 & G1)|(a1 & E1 & _)];
  destruct (append_cases _ t Hc) as [(a2 & E2 & G2)|(a2 & E2 & _)];
  destruct (append_cases _ t Hp) as [(a3 & E3 & G3)|(a3 & E3 & _)];
    rewrite E1, E2, E3; repeat case_match; simplify_eq; simpl;
    try done; repeat (apply Forall_cons; split); try done;
    by eapply grows_initialised.
Qed.

Lemma parse_loop_initialised toks : ∀ f,
  frame_ok f → initialised (f_cli f) →
  match parse_loop toks f with
  | inl f' => initialised (f_cli f')
  | inr (Returned _ c _) => initialised c
  | inr (Halted _ _ _) => True
  end.
Proof.
  induction toks as [|t r IH]; intros f Hok Hi; simpl; [done|].
  pose proof (parse_token_initialised t f Hok Hi) as Ht.
  pose proof (parse_token_arrays t f Hok) as Ha.
  destruct (parse_token t f) as [f1|[e c w|h c w]]; [by apply IH|done|done].
Qed.

(** A return other than the fatal one, with tokens: the arrays are in the
    state [da_ok], and the three blocks are live. *)
Lemma cli_parse_returned_arrays exec t r cli w e c' w' :
  cli_parse (exec :: t :: r) cli w = Returned e c' w' → e ≠ CliErrorFatal →
  arrays_ok c' ∧ initialised c'
  ∧ live_blocks w' = (3 + live_blocks w)%nat
  ∧ malloc_calls w' = (3 + malloc_calls w)%nat.
Proof.
  intros Hrun He.
  destruct (cli_parse_shape exec t r cli w)
    as [(Hall & E)|(_ & k & msg & c & _ & E & _)];
    rewrite E in Hrun; [|by simplify_eq].
  pose proof (entry_frame_ok exec cli w) as Hok.
  pose proof (parse_loop_arrays (t :: r) _ Hok) as Ha.
  pose proof (parse_loop_world (t :: r) (entry_frame exec cli w)) as Hw.
  assert (initialised (f_cli (entry_frame exec cli w))) as Hi0
    by (by repeat constructor).
  pose proof (parse_loop_initialised (t :: r) _ Hok Hi0) as Hi.
  destruct (parse_loop (t :: r) (entry_frame exec cli w)) as [f'|o].
  - simplify_eq. rewrite Hw. by split_and!.
  - subst o. destruct Hw as (_ & line & ->). by split_and!.
Qed.

Lemma cli_free_arrays_ok c w :
  arrays_ok c →
  live_blocks (cli_free c w) = (live_blocks w - 3)%nat.
Proof.
  intros ((_ & _ & d1 & E1 & _) & (_ & _ & d2 & E2 & _) & (_ & _ & d3 & E3 & _)).
  unfold cli_free. rewrite E1, E2, E3. simpl. lia.
Qed.

(** X4. After a return other than the fatal one, with at least one token,
    each of the three arrays has the default capacity, a non-null block of
    that many slots and a length within the capacity, and every slot below
    the length holds a token: the caller reads [data[0 .. length-1]]
    without meeting an uninitialised slot. *)
Theorem cli_parse_arrays_readable exec t r cli w e c' w' :
  cli_parse (exec :: t :: r) cli w = Returned e c' w' → e ≠ CliErrorFatal →
  Forall (λ a,
      CliStringArray.capacity a = CLI_DEFAULT_ARR_CAP
      ∧ 0 ≤ CliStringArray.length a ≤ CLI_DEFAULT_ARR_CAP
      ∧ (∃ d, CliStringArray.data a = Some d
              ∧ Z.of_nat (length d) = CLI_DEFAULT_ARR_CAP
              ∧ ∀ i, (0 ≤ i < CliStringArray.length a) →
                     ∃ tok, d !! Z.to_nat i = Some (Some tok)))
    (array_fields c').
Proof.
  intros Hrun He.
  destruct (cli_parse_returned_arrays _ _ _ _ _ _ _ _ Hrun He)
    as ((Ha & Hc & Hp) & Hi & _).
  unfold initialised in Hi. rewrite Forall_forall in Hi.
  assert (∀ a, a ∈ array_fields c' → da_ok a) as Hok.
  { intros a. unfold array_fields. rewrite !elem_of_cons, elem_of_nil.
    intros [->|[->|[->|[]]]]; done. }
  apply Forall_forall. intros a Hin.
  destruct (Hok a Hin) as (Hcap & Hlen & d & Hd & Hn).
  specialize (Hi a Hin). unfold items in Hi. rewrite Hd in Hi.
  rewrite Hcap in Hlen, Hn. split_and!; try done; try lia.
  exists d. split_and!; try done. intros i Hi'.
  rewrite Forall_forall in Hi.
  assert (is_Some (take (Z.to_nat (len a)) d !! Z.to_nat i)) as [x Hx].
  { apply lookup_lt_is_Some. rewrite length_take. lia. }
  assert (is_Some x) as [tok ->].
  { apply Hi. by eapply list_elem_of_lookup_2. }
  exists tok. rewrite lookup_take_lt in Hx by lia. exact Hx.
Qed.

Lemma cli_parse_arrays_readable_witness :
  Forall (λ a, 0 ≤ CliStringArray.length a ≤ CLI_DEFAULT_ARR_CAP)
    (array_fields (final_cli user_example_run)).
Proof.
  assert (cli_parse ["prog"; "-v"; "in"; "--"; "-x"] stale world0
          = Returned CliErrorUser (final_cli user_example_run)
              (final_world user_example_run)) as Hrun
    by (vm_compute; reflexivity).
  assert (CliErrorUser ≠ CliErrorFatal) as He by discriminate.
  pose proof (cli_parse_arrays_readable _ _ _ _ _ _ _ _ Hrun He) as Hall.
  eapply Forall_impl; [exact Hall|].
  intros a (_ & Hlen & _). exact Hlen.
Defined.

(** ** Releasing the arrays *)

(** X5. [cli_free] after [cli_parse] gives back every block the call
    obtained: after a return other than the fatal one (with or without
    tokens) the number of live blocks is what it was before the call; after
    the fatal return this holds when the caller's structure held null
    [data] pointers before the call. Nothing else of the world changes. *)
Theorem cli_free_after_parse exec toks cli w e c' w' :
  cli_parse (exec :: toks) cli w = Returned e c' w' →
  (e = CliErrorFatal →
   Forall (λ a, CliStringArray.data a = None) (array_fields cli)) →
  live_blocks (cli_free c' w') = live_blocks w
  ∧ style (cli_free c' w') = style w'
  ∧ err_stream (cli_free c' w') = err_stream w'
  ∧ malloc_calls (cli_free c' w') = malloc_calls w'.
Proof.
  intros Hrun Hnull. split.
  - destruct toks as [|t r].
    { unfold cli_parse in Hrun. simpl in Hrun. by simplify_eq. }
    assert (e = CliErrorFatal ∨ e ≠ CliErrorFatal) as [->|He]
      by (destruct e; auto; right; discriminate).
    + destruct (cli_parse_shape exec t r cli w)
        as [(Hall & E)|(_ & k & msg & c & Hk & E & _ & Harr)].
      { rewrite E in Hrun.
        destruct (parse_loop (t :: r) (entry_frame exec cli w)) as [f'|o] eqn:El;
          [done|]. subst o. by apply parse_loop_returned_user in El. }
      rewrite E in Hrun. simplify_eq. specialize (Hnull eq_refl).
      destruct cli as [? ? s1 s2 s3], c' as [? ? a1 a2 a3].
      unfold array_fields in *. simpl in *.
      apply Forall_cons in Hnull as [N1 Hnull].
      apply Forall_cons in Hnull as [N2 Hnull].
      apply Forall_cons in Hnull as [N3 _].
      unfold cli_free. simpl.
      destruct k as [|[|[|k]]]; simpl in Harr; simplify_eq; simpl;
        rewrite ?N1, ?N2, ?N3; simpl; lia.
    + destruct (cli_parse_returned_arrays _ _ _ _ _ _ _ _ Hrun He)
        as (Hok & _ & Hlive & _).
      rewrite (cli_free_arrays_ok _ _ Hok). lia.
  - unfold cli_free, CLI_FREE. by repeat case_match.
Qed.

Lemma cli_free_after_parse_witness :
  live_blocks (final_world user_example_run) = 3%nat
  ∧ live_blocks (cli_free (final_cli user_example_run)
                   (final_world user_example_run)) = 0%nat.
Proof.
  assert (cli_parse ["prog"; "-v"; "in"; "--"; "-x"] stale world0
          = Returned CliErrorUser (final_cli user_example_run)
              (final_world user_example_run)) as Hrun
    by (vm_compute; reflexivity).
  assert (CliErrorUser = CliErrorFatal →
          Forall (λ a, CliStringArray.data a = None) (array_fields stale))
    as Hnull by discriminate.
  destruct (cli_free_after_parse _ _ _ _ _ _ _ Hrun Hnull) as (Hlive & _).
  split; [vm_compute; reflexivity|exact Hlive].
Defined.

(** X6. [cli_parse] does not release what the structure already holds: two
    calls in a row on the same structure, each with tokens and returning
    otherwise than by the fatal error, followed by one [cli_free], leave
    the three blocks of the first call live. *)
Theorem cli_parse_twice_leaks exec1 t1 r1 exec2 t2 r2 cli w e1 c1 w1 e2 c2 w2 :
  cli_parse (exec1 :: t1 :: r1) cli w = Returned e1 c1 w1 → e1 ≠ CliErrorFatal →
  cli_parse (exec2 :: t2 :: r2) c1 w1 = Returned e2 c2 w2 → e2 ≠ CliErrorFatal →
  live_blocks (cli_free c2 w2) = (3 + live_blocks w)%nat.
Proof.
  intros H1 E1 H2 E2.
  destruct (cli_parse_returned_arrays _ _ _ _ _ _ _ _ H1 E1) as (_ & _ & L1 & _).
  destruct (cli_parse_returned_arrays _ _ _ _ _ _ _ _ H2 E2) as (Hok & _ & L2 & _).
  rewrite (cli_free_arrays_ok _ _ Hok). lia.
Qed.

Lemma cli_parse_twice_leaks_witness :
  live_blocks (cli_free (final_cli second_example_run)
                 (final_world second_example_run)) = 3%nat.
Proof.
  assert (cli_parse ["prog"; "-a"; "--"; "-b"] stale world0
          = Returned CliErrorOk (final_cli spec_example_run)
              (final_world spec_example_run)) as H1
    by (vm_compute; reflexivity).
  assert (cli_parse ["prog"; "x"; "-y"] (final_cli spec_example_run)
            (final_world spec_example_run)
          = Returned CliErrorOk (final_cli second_example_run)
              (final_world second_example_run)) as H2
    by (vm_compute; reflexivity).
  assert (CliErrorOk ≠ CliErrorFatal) as He by discriminate.
  exact (cli_parse_twice_leaks _ _ _ _ _ _ _ _ _ _ _ _ _ _ H1 He H2 He).
Defined.

(** ** Which inputs lead to which outcome *)

Lemma scanned_entry exec cli w toks f' :
  scanned (entry_frame exec cli w) toks f' →
  fits toks ∧ separators_first toks.
Proof.
  intros [(Ha & Hc & Hp) _ _ _ Sa Sc Sp _ Sl]. simpl in *. split.
  - unfold fits.
    pose proof (da_ok_length _ Ha) as La. rewrite Sa, length_fmap in La.
    pose proof (da_ok_length _ Hc) as Lc. rewrite Sc, length_fmap in Lc.
    pose proof (da_ok_length _ Hp) as Lp. rewrite Sp, length_fmap in Lp.
    destruct Ha as (Ka & ? & _), Hc as (Kc & ? & _), Hp as (Kp & ? & _).
    rewrite <-La, <-Lc, <-Lp. lia.
  - intros l1 l2 Heq. by destruct (Sl l1 l2 Heq).
Qed.

Lemma entry_loop_completes exec cli w toks :
  Forall cstring toks →
  (∃ f', parse_loop toks (entry_frame exec cli w) = inl f')
  ↔ separators_first toks ∧ fits toks.
Proof.
  intros Hcs. pose proof (entry_frame_ok exec cli w) as Hok. split.
  - intros [f' Hloop].
    destruct (scanned_entry _ _ _ _ _ (parse_loop_scanned _ _ _ Hcs Hok Hloop)).
    done.
  - intros [Hsep Hfit].
    apply (parse_loop_completes toks _ Hcs Hok); [by apply fits_entry|].
    intros l1 l2 Heq. split; [done|by eapply Hsep].
Qed.

Lemma separators_first_b_seen toks :
  separators_first_b true toks = true → separator ∉ toks.
Proof.
  induction toks as [|t r IH]; simpl; [intros _; apply not_elem_of_nil|].
  case_decide as Hs; [done|]. intros Hb. apply not_elem_of_cons. auto.
Qed.

Lemma separators_first_check toks :
  separators_first_b false toks = true → separators_first toks.
Proof.
  induction toks as [|t r IH]; simpl; intros Hb l1 l2 Heq.
  { by destruct l1. }
  destruct l1 as [|x l1]; [constructor|]. simplify_eq/=.
  case_decide as Hs.
  - subst. constructor; [apply separator_dash|]. by eapply IH.
  - case_bool_decide as Hp; simpl in Hb.
    + apply separators_first_b_seen in Hb. destruct Hb.
      apply elem_of_app. right. left.
    + constructor; [|by eapply IH].
      by destruct (decide (starts_with_dash x)).
Qed.

(** X7. [cli_parse] returns [CliErrorOk] exactly when there is no token
    after the invocation path, or the three allocations succeed, every
    ["--"] comes before the first positional token, and no class holds
    more tokens than the default capacity. *)
Theorem cli_parse_succeeds_iff exec toks cli w :
  Forall cstring toks →
  (∃ c' w', cli_parse (exec :: toks) cli w = Returned CliErrorOk c' w')
  ↔ toks = [] ∨ (allocations_succeed w ∧ separators_first toks ∧ fits toks).
Proof.
  intros Hcs. split.
  - intros (c' & w' & Hrun). destruct toks as [|t r]; [by left|right].
    destruct (cli_parse_ok_inv exec (t :: r) cli w c' w') as (Hall & f' & Hl & _);
      [done|done|].
    split; [done|]. apply (entry_loop_completes exec cli w); [done|by exists f'].
  - intros [->|(Hall & Hsep & Hfit)]; [by eexists _, _|].
    destruct toks as [|t r]; [by eexists _, _|].
    destruct (proj2 (entry_loop_completes exec cli w (t :: r) Hcs)) as [f' Hl];
      [done|].
    exists (f_cli f'), (f_world f').
    by rewrite cli_parse_allocated, Hl.
Qed.

Lemma cli_parse_succeeds_iff_witness :
  (∃ c' w', cli_parse ["prog"; "-v"; "--"; "-x"; "in"] stale world0
            = Returned CliErrorOk c' w')
  ∧ ¬ (∃ c' w', cli_parse ["prog"; "in"; "--"] stale world0
                = Returned CliErrorOk c' w').
Proof.
  split.
  - apply (cli_parse_succeeds_iff "prog" ["-v"; "--"; "-x"; "in"] stale world0).
    { repeat constructor; discriminate. }
    right. split; [by split_and!|]. split.
    + apply separators_first_check. vm_compute. reflexivity.
    + vm_compute. repeat split; discriminate.
  - intros Hok.
    apply (cli_parse_succeeds_iff "prog" ["in"; "--"] stale world0) in Hok.
    + destruct Hok as [Hnil|(_ & Hsep & _)]; [discriminate Hnil|].
      specialize (Hsep ["in"] [] eq_refl).
      apply Forall_cons in Hsep as [Hd _]. vm_compute in Hd. discriminate Hd.
    + repeat constructor; discriminate.
Defined.

(** The token at which the loop stopped at an assertion. *)
Lemma parse_loop_halted_inv toks : ∀ f h c w,
  parse_loop toks f = inr (Halted h c w) →
  ∃ pre t post f',
    toks = pre ++ t :: post ∧ parse_loop pre f = inl f'
    ∧ parse_token t f' = inr (Halted h c w).
Proof.
  induction toks as [|t r IH]; intros f h c w Hrun; [done|].
  simpl in Hrun. destruct (parse_token t f) as [f1|o] eqn:E.
  - destruct (IH _ _ _ _ Hrun) as (pre & t' & post & f' & -> & Hpre & Ht).
    exists (t :: pre), t', post, f'. simpl. by rewrite E.
  - simplify_eq. by exists [], t, r, f.
Qed.

Lemma separators_first_app_l l k : separators_first (l ++ k) → separators_first l.
Proof.
  intros H l1 l2 ->. apply (H l1 (l2 ++ k)). by rewrite <-app_assoc.
Qed.

Lemma separators_first_snoc l t :
  separators_first l → t ≠ separator → separators_first (l ++ [t]).
Proof.
  intros Hl Ht l1 l2 Heq.
  destruct l2 as [|x l2 _] using rev_ind.
  - apply app_inj_tail in Heq as [_ ?]. done.
  - change (l1 ++ separator :: l2 ++ [x]) with (l1 ++ (separator :: l2) ++ [x]) in Heq.
    rewrite app_assoc in Heq. apply app_inj_tail in Heq as [-> _].
    by eapply Hl.
Qed.

(** X8. [cli_parse] stops at the capacity assertion exactly when the
    three allocations succeed and some token is one too many for its class:
    the tokens before it fit, with it they do not, and no ["--"] after a
    positional token comes earlier. *)
Theorem cli_parse_overflows_iff exec toks cli w :
  Forall cstring toks →
  (∃ c' w', cli_parse (exec :: toks) cli w = Halted AssertCapacity c' w')
  ↔ allocations_succeed w
    ∧ ∃ pre t post,
        toks = pre ++ t :: post ∧ separators_first (pre ++ [t])
        ∧ fits pre ∧ ¬ fits (pre ++ [t]).
Proof.
  intros Hcs. pose proof (entry_frame_ok exec cli w) as Hok. split.
  - intros (c' & w' & Hrun). destruct toks as [|t0 r0]; [done|].
    destruct (cli_parse_shape exec t0 r0 cli w)
      as [(Hall & E)|(_ & k & msg & c & _ & E & _)];
      rewrite E in Hrun; [|done].
    split; [done|].
    destruct (parse_loop (t0 :: r0) (entry_frame exec cli w)) as [f'|o] eqn:El;
      [done|]. subst o.
    destruct (parse_loop_halted_inv _ _ _ _ _ El)
      as (pre & t & post & f' & Heq & Hpre & Ht).
    exists pre, t, post. split; [done|].
    rewrite Heq in Hcs. apply Forall_app in Hcs as [Hcpre Hcs].
    apply Forall_cons in Hcs as [Hct _].
    pose proof (parse_loop_scanned _ _ _ Hcpre Hok Hpre) as Hsc.
    destruct (scanned_entry _ _ _ _ _ Hsc) as [Hfit Hsep].
    assert (parse_loop (pre ++ [t]) (entry_frame exec cli w)
            = inr (Halted AssertCapacity c' w')) as Hstop
      by (by rewrite parse_loop_app, Hpre; simpl; rewrite Ht).
    split_and!; [|done|].
    + apply separators_first_snoc; [done|]. intros ->.
      pose proof (parse_token_step separator f' (scanned_ok _ _ _ Hsc) Hct) as Hst.
      rewrite Ht in Hst. inversion Hst as [| a Hp | | | | a Ho | | a Ho];
        [by apply separator_not_positional in Hp
        |by apply separator_not_option in Ho
        |by apply separator_not_option in Ho].
    + intros Hfit'. eapply parse_loop_fits_no_halt; [| |by apply fits_entry|done].
      * apply Forall_app. split; [done|by constructor].
      * done.
  - intros (Hall & pre & t & post & -> & Hsep & Hfit & Hnofit).
    apply Forall_app in Hcs as [Hcpre Hcs].
    apply Forall_cons in Hcs as [Hct _].
    assert (Forall cstring (pre ++ [t])) as Hc1
      by (apply Forall_app; split; [done|by constructor]).
    destruct (proj2 (entry_loop_completes exec cli w pre Hcpre)) as [f' Hpre].
    { split; [by eapply separators_first_app_l|done]. }
    pose proof (parse_loop_scanned _ _ _ Hcpre Hok Hpre) as Hsc.
    pose proof (parse_token_arrays t f' (scanned_ok _ _ _ Hsc)) as Hta.
    assert (parse_loop (pre ++ [t]) (entry_frame exec cli w)
            = match parse_token t f' with inl f1 => inl f1 | inr o => inr o end)
      as Hsnoc by (by rewrite parse_loop_app, Hpre).
    destruct (parse_token t f') as [f1|[e c1 w1|h c1 w1]] eqn:Et.
    + destruct Hnofit.
      apply (proj1 (entry_loop_completes exec cli w (pre ++ [t]) Hc1)).
      by exists f1.
    + destruct (parse_loop_returned _ _ _ _ _ Hc1 Hok Hsnoc)
        as (_ & pre1 & post1 & f1 & Heq & Hl1 & Hpos & _).
      apply Forall_app in Hc1 as [_ ?].
      assert (Forall cstring pre1) as Hcp1.
      { assert (Forall cstring (pre1 ++ separator :: post1)) as Hc2
          by (rewrite <-Heq; apply Forall_app; split; [done|by constructor]).
        by apply Forall_app in Hc2 as [? _]. }
      pose proof (parse_loop_scanned _ _ _ Hcp1 Hok Hl1) as Hsc1.
      pose proof (Hsep pre1 post1 Heq) as Hdash.
      destruct Hsc1 as [(Ha1 & _) _ _ _ Sa1 _ _ _ _]. simpl in *.
      rewrite (da_ok_length _ Ha1), Sa1, length_fmap in Hpos.
      assert (positional_tokens pre1 = []) as Hnil.
      { unfold positional_tokens. clear -Hdash.
        induction Hdash as [|x l Hx _ IH]; [done|].
        by rewrite filter_cons_False by (by intros Hp; apply Hp). }
      rewrite Hnil in Hpos. simpl in Hpos. lia.
    + subst h. exists c1, w1.
      destruct pre as [|p0 pre0]; simpl.
      * rewrite cli_parse_allocated by done. simpl in Hpre. simplify_eq.
        simpl. by rewrite Et.
      * rewrite cli_parse_allocated by done.
        change (p0 :: pre0 ++ t :: post) with ((p0 :: pre0) ++ t :: post).
        rewrite parse_loop_app, Hpre. simpl. by rewrite Et.
Qed.

Lemma cli_parse_overflows_iff_witness :
  ∃ c' w', cli_parse ["prog"; "a"; "b"; "c"; "d"; "e"; "f"; "g"] stale world0
           = Halted AssertCapacity c' w'.
Proof.
  apply (cli_parse_overflows_iff "prog" ["a"; "b"; "c"; "d"; "e"; "f"; "g"]
           stale world0).
  { repeat constructor; discriminate. }
  split; [by split_and!|].
  exists ["a"; "b"; "c"; "d"; "e"], "f", ["g"]. split; [reflexivity|].
  split_and!.
  - apply separators_first_check. vm_compute. reflexivity.
  - vm_compute. repeat split; discriminate.
  - intros (Hpos & _). vm_compute in Hpos. by apply Hpos.
Defined.

(** ** The diagnostic of the user error *)

Lemma last_item_items a p :
  da_ok a → last (items a) = Some (Some p) → last_item a = p.
Proof.
  intros Hok Hlast. pose proof (da_ok_length a Hok) as Hlen.
  destruct Hok as (Hc & Hl & d & Hd & Hn).
  unfold last_item, items in *. rewrite Hd in *.
  rewrite last_lookup, length_take in Hlast.
  assert (Z.to_nat (len a - 1) = Init.Nat.pred (Z.to_nat (len a) `min` length d))
    as -> by lia.
  rewrite lookup_take_lt in Hlast.
  - by rewrite Hlast.
  - destruct (Z.to_nat (len a)) eqn:E; [|lia]. by simpl in Hlast.
Qed.

Lemma cli_parse_user_diagnostic exec toks cli w c' w' :
  Forall cstring toks →
  cli_parse (exec :: toks) cli w = Returned CliErrorUser c' w' →
  ∃ pre post p,
    late_separator toks pre post
    ∧ last (positional_tokens pre) = Some p
    ∧ err_stream w' = err_stream w ++ [double_dash_line (style w) p].
Proof.
  intros Hcs Hrun. destruct toks as [|t r]; [done|].
  destruct (cli_parse_shape exec t r cli w)
    as [(Hall & E)|(_ & k & msg & c & _ & E & _)];
    rewrite E in Hrun; [|done].
  pose proof (entry_frame_ok exec cli w) as Hok.
  destruct (parse_loop (t :: r) (entry_frame exec cli w)) as [f'|o] eqn:El;
    [done|]. subst o.
  destruct (parse_loop_returned _ _ _ _ _ Hcs Hok El)
    as (_ & pre & post & f' & Heq & Hloop & Hpos & -> & ->).
  rewrite Heq in Hcs. apply Forall_app in Hcs as [Hpre _].
  destruct (parse_loop_scanned _ _ _ Hpre Hok Hloop)
    as [(Ha' & _) Sw _ _ Sa _ _ _ Sl]. simpl in *.
  assert (positional_tokens pre ≠ []) as Hne.
  { intros Hnil. rewrite (da_ok_length _ Ha'), Sa, Hnil in Hpos.
    simpl in Hpos. lia. }
  destruct (proj2 (last_is_Some (positional_tokens pre)) Hne) as [p Hp].
  exists pre, post, p. split_and!; try done.
  - split_and!; [done|by apply positional_tokens_nonempty|].
    intros l1 l2 Hsplit. by destruct (Sl l1 l2 Hsplit).
  - rewrite (last_item_items _ p Ha'), Sw; [done|].
    by rewrite Sa, fmap_last, Hp.
Qed.



(** ** What the caller may leave in the structure *)

(** X10. The outcome of [cli_parse] does not depend on what the structure
    held before the call, the [command] field apart, as long as the
    allocations succeed: an uninitialised [Cli] is a valid argument. With
    the invocation path alone nothing of the old contents matters. *)
Theorem cli_parse_ignores_old_contents exec toks cli1 cli2 w :
  (toks ≠ [] → allocations_succeed w ∧ command cli1 = command cli2) →
  cli_parse (exec :: toks) cli1 w = cli_parse (exec :: toks) cli2 w.
Proof.
  destruct toks as [|t r]; [done|]. intros H.
  destruct H as [Hall Hc]; [done|].
  rewrite !cli_parse_allocated by done. unfold entry_frame. by rewrite Hc.
Qed.

Lemma cli_parse_ignores_old_contents_witness :
  cli_parse ["prog"; "-a"; "--"; "-b"] stale world0
  = cli_parse ["prog"; "-a"; "--"; "-b"]
      (mkCli None (Some "keep") CliStringArray.zero CliStringArray.zero
             CliStringArray.zero) world0.
Proof.
  apply cli_parse_ignores_old_contents. intros _. split; [|reflexivity].
  by split_and!.
Defined.

(** ** Longer and shorter argument vectors *)

Lemma grows_prefix a t a' : grows a t a' → items a `prefix_of` items a'.
Proof. intros [_ ->]. by apply prefix_app_r. Qed.

Lemma parse_token_extends t f f1 :
  frame_ok f → parse_token t f = inl f1 →
  items (args (f_cli f)) `prefix_of` items (args (f_cli f1))
  ∧ items (cmd_options (f_cli f)) `prefix_of` items (cmd_options (f_cli f1))
  ∧ items (program_options (f_cli f))
    `prefix_of` items (program_options (f_cli f1)).
Proof.
  intros (Ha & Hc & Hp). unfold parse_token.
  destruct (append_cases _ t Ha) as [(a1 & E1 & G1%grows_prefix)|(a1 & E1 & _)];
  destruct (append_cases _ t Hc) as [(a2 & E2 & G2%grows_prefix)|(a2 & E2 & _)];
  destruct (append_cases _ t Hp) as [(a3 & E3 & G3%grows_prefix)|(a3 & E3 & _)];
    rewrite E1, E2, E3; intros H; repeat case_match; simplify_eq; simpl;
    by split_and!.
Qed.

Lemma parse_loop_extends toks : ∀ f f',
  frame_ok f → parse_loop toks f = inl f' →
  items (args (f_cli f)) `prefix_of` items (args (f_cli f'))
  ∧ items (cmd_options (f_cli f)) `prefix_of` items (cmd_options (f_cli f'))
  ∧ items (program_options (f_cli f))
    `prefix_of` items (program_options (f_cli f')).
Proof.
  induction toks as [|t r IH]; intros f f' Hok Hrun; simpl in Hrun.
  { by simplify_eq. }
  pose proof (parse_token_arrays t f Hok) as Hok1.
  destruct (parse_token t f) as [f1|o] eqn:E; [|done].
  destruct (parse_token_extends t f f1 Hok E) as (P1 & P2 & P3).
  destruct (IH f1 f' Hok1 Hrun) as (Q1 & Q2 & Q3).
  split_and!; by etrans.
Qed.

(** X11. Success is closed under shortening the argument vector, and the
    classification is incremental: if [cli_parse] succeeds on
    [exec :: toks ++ more] then it succeeds on [exec :: toks], leaving the
    same world, and each array of the shorter run is a prefix of the
    corresponding array of the longer one. *)
Theorem cli_parse_prefix exec toks more cli w c2 w2 :
  toks ≠ [] →
  cli_parse (exec :: toks ++ more) cli w = Returned CliErrorOk c2 w2 →
  ∃ c1,
    cli_parse (exec :: toks) cli w = Returned CliErrorOk c1 w2
    ∧ items (args c1) `prefix_of` items (args c2)
    ∧ items (cmd_options c1) `prefix_of` items (cmd_options c2)
    ∧ items (program_options c1) `prefix_of` items (program_options c2).
Proof.
  intros Hne Hrun. destruct toks as [|t r]; [done|].
  destruct (cli_parse_ok_inv exec ((t :: r) ++ more) cli w c2 w2)
    as (Hall & f2 & Hloop & -> & ->); [done|done|].
  rewrite parse_loop_app in Hloop.
  pose proof (entry_frame_ok exec cli w) as Hok.
  pose proof (parse_loop_arrays (t :: r) _ Hok) as Hok1.
  pose proof (parse_loop_world (t :: r) (entry_frame exec cli w)) as Hw1.
  destruct (parse_loop (t :: r) (entry_frame exec cli w)) as [f1|o] eqn:E1;
    [|done].
  pose proof (parse_loop_world more f1) as Hw2. rewrite Hloop in Hw2.
  exists (f_cli f1). split.
  - rewrite cli_parse_allocated, E1 by done. by rewrite Hw2.
  - by apply (parse_loop_extends more).
Qed.

Lemma cli_parse_prefix_witness :
  ∃ c1, cli_parse ["prog"; "-v"; "--"; "in"] stale world0
        = Returned CliErrorOk c1 (final_world order_example_run)
        ∧ items (args c1) `prefix_of` [Some "in"; Some "out"].
Proof.
  assert (cli_parse ("prog" :: ["-v"; "--"; "in"] ++ ["-x"; "out"; "-y"])
            stale world0
          = Returned CliErrorOk (final_cli order_example_run)
              (final_world order_example_run)) as Hrun
    by (vm_compute; reflexivity).
  assert (["-v"; "--"; "in"] ≠ []) as Hne by discriminate.
  destruct (cli_parse_prefix _ _ _ _ _ _ _ Hne Hrun) as (c1 & H1 & Pa & _).
  exists c1. split; [exact H1|exact Pa].
Defined.

(** ** Toggling from any state *)

(** X12. Whatever the five globals hold, one call of [cli_toggle_colors]
    (styles compiled in) leaves them all empty or all set to their escape
    sequences, and from then on two more calls change nothing: three calls
    do what one call does. *)
Theorem toggle_settles no_styles s :
  (no_styles = false →
   cli_toggle_colors no_styles s = style_ansi
   ∨ cli_toggle_colors no_styles s = style_initial)
  ∧ cli_toggle_colors no_styles
      (cli_toggle_colors no_styles (cli_toggle_colors no_styles s))
    = cli_toggle_colors no_styles s.
Proof.
  destruct no_styles; [by split|].
  assert (cli_toggle_colors false s = style_ansi
          ∨ cli_toggle_colors false s = style_initial) as Hcases.
  { unfold cli_toggle_colors.
    destruct (Ascii.eqb (char_at (CLI_RESET s) 0) NUL); auto. }
  split; [done|]. by destruct Hcases as [->| ->].
Qed.

(** X13. Starting from the initial values, after [n] calls of
    [cli_toggle_colors] the styles are active when [n] is odd and inactive
    when [n] is even; with [CLI_NO_STYLES] they stay inactive. *)
Theorem toggle_parity n :
  Nat.iter n (cli_toggle_colors false) style_initial
  = (if Nat.even n then style_initial else style_ansi)
  ∧ Nat.iter n (cli_toggle_colors true) style_initial = style_initial.
Proof.
  induction n as [|n [IH1 IH2]]; [done|]. split.
  - rewrite Nat.even_succ, <-Nat.negb_even. simpl. rewrite IH1.
    by destruct (Nat.even n).
  - simpl. by rewrite IH2.
Qed.

(** ** Positional tokens only *)

Lemma positional_only toks :
  Forall positional toks →
  positional_tokens toks = toks
  ∧ program_option_tokens toks = []
  ∧ command_option_tokens toks = []
  ∧ separators_first toks.
Proof.
  intros Hall.
  assert (separator ∉ toks) as Hsep.
  { intros Hin. rewrite Forall_forall in Hall.
    by apply separator_not_positional, Hall. }
  unfold positional_tokens, program_option_tokens, command_option_tokens.
  rewrite before_sep_all by done. split_and!.
  - induction Hall as [|t r Ht _ IH]; [done|].
    rewrite filter_cons_True by done. f_equal. apply IH.
    by apply not_elem_of_cons in Hsep as [_ ?].
  - clear Hsep. induction Hall as [|t r Ht _ IH]; [done|].
    by rewrite filter_cons_False by (by apply positional_not_option).
  - clear Hall. induction toks as [|t r IH]; [done|].
    apply not_elem_of_cons in Hsep as [Hne Hr]. simpl.
    rewrite decide_False by done. by apply IH.
  - intros l1 l2 ->. destruct Hsep. apply elem_of_app. right. left.
Qed.

(** X14. With successful allocations, on one to five tokens none of which
    begins with ['-'], [cli_parse] succeeds after exactly three
    allocations and without printing; [args] holds all the tokens in their
    order, and the two option arrays are empty. *)
Theorem cli_parse_positional_only exec toks cli w :
  allocations_succeed w → Forall cstring toks → Forall positional toks →
  toks ≠ [] → (length toks ≤ 5)%nat →
  ∃ c',
    cli_parse (exec :: toks) cli w = Returned CliErrorOk c' (after_mallocs 3 w)
    ∧ items (args c') = Some <$> toks
    ∧ items (cmd_options c') = []
    ∧ items (program_options c') = [].
Proof.
  intros Hall Hcs Hpos Hne Hlen.
  destruct (positional_only toks Hpos) as (Ea & Ep & Ec & Hsep).
  pose proof (entry_frame_ok exec cli w) as Hok.
  destruct (proj2 (entry_loop_completes exec cli w toks Hcs)) as [f' Hloop].
  { split; [done|]. unfold fits, CLI_DEFAULT_ARR_CAP. rewrite Ea, Ep, Ec.
    simpl. lia. }
  destruct (parse_loop_scanned _ _ _ Hcs Hok Hloop)
    as [_ Sw _ _ Sa Sc Sp _ _]. simpl in *.
  exists (f_cli f'). destruct toks as [|t r]; [done|].
  rewrite cli_parse_allocated, Hloop, Sw by done.
  rewrite Sa, Sc, Sp, Ea, Ec, Ep. by split_and!.
Qed.

Lemma cli_parse_positional_only_witness :
  ∃ c',
    cli_parse ["prog"; "a"; ""; "b-c"; "d"; "e"] stale world0
    = Returned CliErrorOk c' (after_mallocs 3 world0)
    ∧ items (args c') = [Some "a"; Some ""; Some "b-c"; Some "d"; Some "e"].
Proof.
  destruct (cli_parse_positional_only "prog" ["a"; ""; "b-c"; "d"; "e"]
              stale world0) as (c' & Hrun & Ha & _).
  - by split_and!.
  - repeat constructor; discriminate.
  - repeat constructor; intros Hd; vm_compute in Hd; try discriminate Hd;
      exact Hd.
  - discriminate.
  - simpl. lia.
  - exists c'. split; [exact Hrun|exact Ha].
Defined.

(** ** The fatal error *)

(** X15. [cli_parse] returns [CliErrorFatal] exactly when there is a token
    after the invocation path and one of the three allocations fails:
    nothing in the tokens themselves leads to the fatal error. *)
Theorem cli_parse_fatal_iff exec toks cli w :
  (∃ c' w', cli_parse (exec :: toks) cli w = Returned CliErrorFatal c' w')
  ↔ toks ≠ [] ∧ ¬ allocations_succeed w.
Proof.
  destruct toks as [|t r].
  { split; [by intros (c' & w' & ?)|by intros [? _]]. }
  destruct (cli_parse_shape exec t r cli w)
    as [(Hall & E)|(Hfail & k & msg & c & _ & E & _)]; rewrite E; clear E.
  - split; [|by intros [_ ?]]. intros (c' & w' & Hrun).
    destruct (parse_loop (t :: r) (entry_frame exec cli w)) as [f'|o] eqn:El;
      [done|]. subst o. by apply parse_loop_returned_user in El.
  - split; [done|]. intros _. by eexists _, _.
Qed.

(** ** Repeated separators *)

Lemma parse_token_separator f :
  parse_token separator f
  = if 0 <? len (args (f_cli f))
    then inr (Returned CliErrorUser (f_cli f)
                (cli_print_error "CLI error"
                   (double_dash_message separator (last_item (args (f_cli f))))
                   (f_world f)))
    else inl (mkFrame (f_cli f) (f_world f) true).
Proof. reflexivity. Qed.

Lemma parse_token_separator_twice f :
  match parse_token separator f with
  | inl f1 => parse_token separator f1 = inl f1
  | inr _ => True
  end.
Proof.
  rewrite parse_token_separator.
  destruct (0 <? len (args (f_cli f))) eqn:E; [done|].
  rewrite parse_token_separator. simpl. by rewrite E.
Qed.

(** X16. A ["--"] written twice in a row is the same as one: for all
    tokens before and after, the outcome of [cli_parse] (structure, world
    and result) is the same with the second one as without it. *)
Theorem cli_parse_double_separator exec pre post cli w :
  cli_parse (exec :: pre ++ separator :: separator :: post) cli w
  = cli_parse (exec :: pre ++ separator :: post) cli w.
Proof.
  assert (∀ f, parse_loop (pre ++ separator :: separator :: post) f
               = parse_loop (pre ++ separator :: post) f) as Hloop.
  { intros f. rewrite !parse_loop_app.
    destruct (parse_loop pre f) as [f'|o]; [|done].
    cbn [parse_loop]. pose proof (parse_token_separator_twice f') as H2.
    destruct (parse_token separator f') as [f1|o]; [|done].
    by rewrite H2. }
  destruct (pre ++ separator :: separator :: post) as [|t1 r1] eqn:E1;
    [by destruct pre|].
  destruct (pre ++ separator :: post) as [|t2 r2] eqn:E2; [by destruct pre|].
  destruct (cli_parse_shape exec t1 r1 cli w)
    as [(Hall & F1)|(Hfail & k & msg & c & _ & _)].
  - rewrite F1, (cli_parse_allocated exec t2 r2 cli w Hall).
    by rewrite Hloop.
  - destruct (cli_parse_allocation_cases exec t1 r1 cli w) as (A1 & A2 & A3).
    destruct (cli_parse_allocation_cases exec t2 r2 cli w) as (B1 & B2 & B3).
    destruct (alloc_ok w (malloc_calls w)) eqn:H1;
      [|by rewrite A1, B1].
    destruct (alloc_ok w (S (malloc_calls w))) eqn:H2;
      [|by rewrite A2, B2].
    destruct (alloc_ok w (S (S (malloc_calls w)))) eqn:H3;
      [|by rewrite A3, B3].
    by destruct Hfail.
Qed.

(** ** Diagnostics with the styles off *)

Lemma occurs_app c a b : occurs c (a +:+ b) = occurs c a || occurs c b.
Proof.
  induction a as [|x a IH]; simpl; [done|]. by rewrite IH, orb_assoc.
Qed.

Lemma all_inactive_initial s : all_inactive s → s = style_initial.
Proof. destruct s. intros (? & ? & ? & ? & ?). simpl in *. by subst. Qed.

(** X17. With the styles inactive, what a call of [cli_parse] writes to
    stderr is plain text: when no token holds an escape character, and the
    diagnostic of a failed assertion holds none either, nothing the call
    adds to the error stream holds one, however the call ends. *)
Theorem cli_parse_prints_plain exec toks cli w line :
  all_inactive (style w) → Forall cstring toks →
  Forall (λ t, occurs ESC t = false) toks →
  (∀ h, occurs ESC (assert_text w h) = false) →
  err_stream (final_world (cli_parse (exec :: toks) cli w))
  = err_stream w ++ [line] →
  occurs ESC line = false.
Proof.
  intros Hs%all_inactive_initial Hcs Hesc Hassert Hline.
  destruct toks as [|t r].
  { simpl in Hline. rewrite <-(app_nil_r (err_stream w)) in Hline at 1.
    by apply app_inv_head in Hline. }
  destruct (cli_parse (exec :: t :: r) cli w) as [e c' w'|h c' w'] eqn:Hrun.
  - destruct e.
    + destruct (cli_parse_ok_inv exec (t :: r) cli w c' w')
        as (_ & f' & Hloop & _ & ->); [done|done|].
      pose proof (parse_loop_world (t :: r) (entry_frame exec cli w)) as Hw.
      rewrite Hloop in Hw. simpl in Hline. rewrite Hw in Hline. simpl in Hline.
      rewrite <-(app_nil_r (err_stream w)) in Hline at 1.
      by apply app_inv_head in Hline.
    + destruct (cli_parse_user_diagnostic _ _ _ _ _ _ Hcs Hrun)
        as (pre & post & p & (Heq & _) & Hp & Herr).
      simpl in Hline. rewrite Herr in Hline.
      apply app_inv_head in Hline. injection Hline as <-.
      assert (occurs ESC p = false) as Hpe.
      { rewrite Forall_forall in Hesc. apply Hesc. rewrite Heq.
        apply elem_of_app. left.
        apply last_Some_elem_of in Hp.
        by apply list_elem_of_filter in Hp as [_ ?]. }
      rewrite Hs. unfold double_dash_line, double_dash_message. simpl.
      rewrite !occurs_app, Hpe. reflexivity.
    + destruct (cli_parse_allocation_cases exec t r cli w) as (F1 & F2 & F3).
      destruct (alloc_ok w (malloc_calls w)) eqn:H1;
        [destruct (alloc_ok w (S (malloc_calls w))) eqn:H2;
          [destruct (alloc_ok w (S (S (malloc_calls w)))) eqn:H3|]|].
      * rewrite cli_parse_allocated in Hrun by done.
        destruct (parse_loop (t :: r) (entry_frame exec cli w)) as [f'|o] eqn:El;
          [done|]. subst o. by apply parse_loop_returned_user in El.
      * rewrite F3 in Hrun by done. simplify_eq. simpl in Hline.
        apply app_inv_head in Hline. injection Hline as <-.
        rewrite Hs. reflexivity.
      * rewrite F2 in Hrun by done. simplify_eq. simpl in Hline.
        apply app_inv_head in Hline. injection Hline as <-.
        rewrite Hs. reflexivity.
      * rewrite F1 in Hrun by done. simplify_eq. simpl in Hline.
        apply app_inv_head in Hline. injection Hline as <-.
        rewrite Hs. reflexivity.
  - destruct (cli_parse_shape exec t r cli w)
      as [(Hall & E)|(_ & k & msg & c & _ & E & _)];
      rewrite E in Hrun; [|done].
    pose proof (parse_loop_world (t :: r) (entry_frame exec cli w)) as Hw.
    pose proof (parse_loop_arrays (t :: r) _ (entry_frame_ok exec cli w)) as Ha.
    destruct (parse_loop (t :: r) (entry_frame exec cli w)) as [f'|o]; [done|].
    subst o. subst h w'. simpl in Hline.
    apply app_inv_head in Hline. injection Hline as <-. apply Hassert.
Qed.

Lemma cli_parse_prints_plain_witness :
  Forall (λ line, occurs ESC line = false)
    (err_stream (final_world user_example_run))
  ∧ Forall (λ line, occurs ESC line = false)
      (err_stream (final_world overflow_example_run)).
Proof.
  assert (all_inactive (style world0)) as Hs by (by split_and!).
  assert (∀ h, occurs ESC (assert_text world0 h) = false) as Hassert
    by (intros h; vm_compute; reflexivity).
  split.
  - assert (err_stream (final_world (cli_parse
              ["prog"; "-v"; "in"; "--"; "-x"] stale world0))
            = err_stream world0 ++ [double_dash_line style_initial "in"])
      as Hline by (vm_compute; reflexivity).
    assert (err_stream (final_world user_example_run)
            = [double_dash_line style_initial "in"]) as ->
      by (vm_compute; reflexivity).
    apply Forall_cons. split; [|constructor].
    apply (cli_parse_prints_plain "prog" ["-v"; "in"; "--"; "-x"] stale world0
             _ Hs); [| |exact Hassert|exact Hline].
    + repeat constructor; discriminate.
    + repeat constructor.
  - assert (err_stream (final_world (cli_parse
              ["prog"; "a"; "b"; "c"; "d"; "e"; "f"] stale world0))
            = err_stream world0 ++ [assert_text world0 AssertCapacity])
      as Hline by (vm_compute; reflexivity).
    assert (err_stream (final_world overflow_example_run)
            = [assert_text world0 AssertCapacity]) as ->
      by (vm_compute; reflexivity).
    apply Forall_cons. split; [|constructor].
    apply (cli_parse_prints_plain "prog" ["a"; "b"; "c"; "d"; "e"; "f"]
             stale world0 _ Hs); [| |exact Hassert|exact Hline].
    + repeat constructor; discriminate.
    + repeat constructor.
Defined.
